(** * kubectl-watch: a shallow embedding of the watch / cache / diff pipeline

    The development follows the Go sources of package [main]:
    - the name filter ([NewFilter], [countPrefix]),
    - the event formatters ([Event], [EventFormatter], [DefaultFormatter],
      [TraceEventFormatter]; the source tree carries two revisions of
      this file and both are embedded),
    - [cmd/kubectl-watch/main.go] ([getKey], [processEvent],
      [processEvents], [watchResource], [printEvents], [flushEvents],
      [main]).

    Go strings are byte strings; they are modelled by [string] (a list of
    8-bit [ascii]).  Go maps with string keys are [gmap string _],
    [sets.String] is [gset string]. *)

From Stdlib Require Import ZArith Ascii String.
From stdpp Require Import gmap strings list.

(** ** Byte-string helpers *)

(** [s[n:]] for [n <= len(s)]. *)
Fixpoint string_drop (n : nat) (s : string) : string :=
  match n, s with
  | S n', String _ r => string_drop n' r
  | _, _ => s
  end.

(** [k] copies of the byte [ch]. *)
Fixpoint string_rep (k : nat) (ch : ascii) : string :=
  match k with
  | O => EmptyString
  | S k' => String ch (string_rep k' ch)
  end.

(** ** The name filter *)

Module Filter.

(** The loop of [countPrefix]: [i] is the loop counter and [rest] is
    [name[i:]]; leaving the loop (by [break] or by [i = len(name)])
    returns [i]. *)
Fixpoint countPrefix_from (rest : string) (ch : ascii) (i : nat) : nat :=
  match rest with
  | String c r => if Ascii.eqb c ch then countPrefix_from r ch (S i) else i
  | EmptyString => i
  end.

Definition countPrefix (name : string) (ch : ascii) : nat :=
  countPrefix_from name ch 0.

(** The two [sets.String] that [NewFilter] fills. *)
Record sets := { include : gset string; exclude : gset string }.

(** One iteration of the [for _, name := range names] loop. *)
Definition insertName (s : sets) (name : string) : sets :=
  let count := countPrefix name "!" in
  let name := string_drop count name in
  if Nat.eqb (count mod 2) 0
  then {| include := {[ name ]} ∪ include s; exclude := exclude s |}
  else {| include := include s; exclude := {[ name ]} ∪ exclude s |}.

Definition buildSets (names : list string) : sets :=
  fold_left insertName names {| include := ∅; exclude := ∅ |}.

(** The closure returned by [NewFilter]. *)
Definition matches (s : sets) (name : string) : bool :=
  if negb (Nat.eqb (size (include s)) 0) && negb (bool_decide (name ∈ include s))
  then false
  else if negb (Nat.eqb (size (exclude s)) 0) && bool_decide (name ∈ exclude s)
  then false
  else true.

Definition NewFilter (names : list string) : string -> bool :=
  matches (buildSets names).

(** *** The filter as the specification words it

    A pattern is [k] negation markers followed by a stripped name that
    does not itself start with a marker. *)
Definition splits (p : string) (k : nat) (n : string) : Prop :=
  p = string_rep k "!" +:+ n ∧ ∀ r, n ≠ String "!" r.

Definition included (names : list string) (n : string) : Prop :=
  ∃ p k, p ∈ names ∧ splits p k n ∧ Nat.Even k.

Definition excluded (names : list string) (n : string) : Prop :=
  ∃ p k, p ∈ names ∧ splits p k n ∧ Nat.Odd k.

End Filter.

(** ** A state monad for the effectful code

    Functions that mutate a map passed by reference, log, print or send on
    a channel are written in state-passing style over the state they
    touch. *)

Definition State (S A : Type) : Type := S → A * S.

#[export] Instance State_ret {S} : MRet (State S) := λ A a s, (a, s).
#[export] Instance State_bind {S} : MBind (State S) :=
  λ A B f m s, let '(a, s') := m s in f a s'.

Definition get {S} : State S S := λ s, (s, s).
Definition modify {S} (f : S → S) : State S unit := λ s, (tt, f s).

(** ** Library stand-ins: [fmt], [strconv], [time], [strings]

    The Go standard library is not part of the repository.  What the code
    needs from it is collected in a class: the layout-driven rendering of
    a [time.Time], the [%q] and [%f] verbs, and the [float64] arithmetic
    of the trace timestamp.  A [time.Time] is represented by its
    [UnixNano()] value. *)

Class GoLib := {
  float64 : Type;
  float64_of_int64 : Z → float64;      (* the conversion float64(x) *)
  float64_div : float64 → float64 → float64;
  fmt_f : float64 → string;            (* verb %f *)
  fmt_q : string → string;             (* verb %q on a string *)
  time_Format : Z → string → string;   (* t.Format(layout) *)
}.

Definition dquote : string := String "034"%char EmptyString.
Definition newline : string := String "010"%char EmptyString.

(** [lit] between two double quotes. *)
Definition quoted (lit : string) : string := dquote +:+ lit +:+ dquote.

Section Sprintf.
Context `{GoLib}.

Inductive arg := ArgString (s : string) | ArgFloat (x : float64).

(** One verb applied to one operand; a verb that does not fit its operand
    prints Go's [%!verb(...)] diagnostic, abbreviated here. *)
Definition verb (v : ascii) (a : arg) : string :=
  match a with
  | ArgString s =>
      if Ascii.eqb v "s" then s
      else if Ascii.eqb v "q" then fmt_q s
      else "%!" +:+ String v "(string)"
  | ArgFloat x =>
      if Ascii.eqb v "f" then fmt_f x
      else "%!" +:+ String v "(float64)"
  end.

(** [fmt.Sprintf] for the verbs the program uses. *)
Fixpoint Sprintf (format : string) (args : list arg) : string :=
  match format with
  | EmptyString =>
      match args with [] => "" | _ :: _ => "%!(EXTRA)" end
  | String c fmt' =>
      if Ascii.eqb c "%" then
        match fmt' with
        | String v rest =>
            match args with
            | a :: args' => verb v a +:+ Sprintf rest args'
            | [] => "%!" +:+ String v "(MISSING)" +:+ Sprintf rest []
            end
        | EmptyString => "%!(NOVERB)"
        end
      else String c (Sprintf fmt' args)
  end.

End Sprintf.

(** ** The event formatters *)

Module Format.

Record Event := { Timestamp : Z; Name : string; Data : string }.

(** The interface [EventFormatter].  [F] is the receiver; [Format] returns
    the receiver as the call leaves it, since one implementation has a
    pointer receiver and writes to it. *)
Class EventFormatter (F : Type) := {
  Preamble : F → string;
  Epilogue : F → string;
  Format : F → Event → string * F;
}.

Definition timeFormat : string := "2006-01-02 15:04:05.000".

(** The timestamp operand [float64(event.Timestamp.UnixNano())/1000]. *)
Definition traceTimestamp `{GoLib} (event : Event) : float64 :=
  float64_div (float64_of_int64 (Timestamp event)) (float64_of_int64 1000).

(** The raw-string body shared by the two trace formatters:
    [{"ts": %f, "name": %q, "ph": "i", "pid": 1, "tid": 1, "s": "t",
      "args": [%q]}]. *)
Definition traceBody : string :=
  "{" +:+ quoted "ts" +:+ ": %f, " +:+ quoted "name" +:+ ": %q, "
      +:+ quoted "ph" +:+ ": " +:+ quoted "i" +:+ ", "
      +:+ quoted "pid" +:+ ": 1, " +:+ quoted "tid" +:+ ": 1, "
      +:+ quoted "s" +:+ ": " +:+ quoted "t" +:+ ", "
      +:+ quoted "args" +:+ ": [%q]}".

Inductive DefaultFormatter := mkDefaultFormatter.

Definition DefaultFormatter_Format `{GoLib} (event : Event) : string :=
  Sprintf ("[%s] %s" +:+ newline +:+ "%s" +:+ newline)
    [ArgString (time_Format (Timestamp event) timeFormat);
     ArgString (Name event); ArgString (Data event)].

#[export] Instance DefaultFormatter_EventFormatter `{GoLib}
  : EventFormatter DefaultFormatter := {
  Preamble _ := EmptyString;
  Epilogue _ := EmptyString;
  Format f event := (DefaultFormatter_Format event, f);
}.

(** *** [TraceEventFormatter], revision with value receivers *)
Module Stateless.

Inductive TraceEventFormatter := mkTraceEventFormatter.

Definition TraceEventFormatter_Format `{GoLib} (event : Event) : string :=
  Sprintf (traceBody +:+ "," +:+ newline)
    [ArgFloat (traceTimestamp event); ArgString (Name event);
     ArgString (Data event)].

#[export] Instance TraceEventFormatter_EventFormatter `{GoLib}
  : EventFormatter TraceEventFormatter := {
  Preamble _ := "[" +:+ newline;
  Epilogue _ := "]" +:+ newline;
  Format f event := (TraceEventFormatter_Format event, f);
}.

End Stateless.

(** *** [TraceEventFormatter], revision with the [needsComma] field *)
Module Stateful.

Record TraceEventFormatter := { needsComma : bool }.

Definition TraceEventFormatter_Format `{GoLib}
    (f : TraceEventFormatter) (event : Event) : string * TraceEventFormatter :=
  let comma := EmptyString in
  let comma := if needsComma f then "," else comma in
  let f := {| needsComma := true |} in
  (Sprintf ("%s" +:+ newline +:+ traceBody)
     [ArgString comma; ArgFloat (traceTimestamp event);
      ArgString (Name event); ArgString (Data event)], f).

#[export] Instance TraceEventFormatter_EventFormatter `{GoLib}
  : EventFormatter TraceEventFormatter := {
  Preamble _ := "[";
  Epilogue _ := newline +:+ "]" +:+ newline;
  Format := TraceEventFormatter_Format;
}.

End Stateful.

(** The record of the structured format as the specification words it: a
    numeric microsecond timestamp, the key and the diff text. *)
Definition traceRecord `{GoLib} (event : Event) : string :=
  "{" +:+ quoted "ts" +:+ ": " +:+ fmt_f (traceTimestamp event) +:+ ", "
      +:+ quoted "name" +:+ ": " +:+ fmt_q (Name event) +:+ ", "
      +:+ quoted "ph" +:+ ": " +:+ quoted "i" +:+ ", "
      +:+ quoted "pid" +:+ ": 1, " +:+ quoted "tid" +:+ ": 1, "
      +:+ quoted "s" +:+ ": " +:+ quoted "t" +:+ ", "
      +:+ quoted "args" +:+ ": [" +:+ fmt_q (Data event) +:+ "]}".

(** The block of the default format, written out: a bracketed timestamp,
    the key, and the diff text on a line of its own. *)
Definition defaultBlock `{GoLib} (e : Event) : string :=
  "[" +:+ time_Format (Timestamp e) timeFormat +:+ "] " +:+ Name e +:+ newline
      +:+ Data e +:+ newline.

End Format.


(** ** Library stand-ins: [unstructured], [watch], [errors], [wait], [strings]

    The Kubernetes client libraries are not part of the repository; the
    definitions below follow their documented behaviour as far as the
    program relies on it. *)

Module K8s.

(** The JSON documents held by an [unstructured.Unstructured]: maps keep
    the fields as a list of pairs, read by the first match. *)
#[local] Set Warnings "-register-all".
Inductive value : Type :=
| VNull
| VBool (b : bool)
| VInt (n : Z)
| VString (s : string)
| VSlice (l : list value)
| VMap (m : list (string * value)).
#[local] Set Warnings "register-all".

Abbreviation object := (list (string * value)).

Record Unstructured := { Object : object }.

Fixpoint field (k : string) (m : object) : option value :=
  match m with
  | [] => None
  | (k', v) :: m' => if String.eqb k k' then Some v else field k m'
  end.

(** [NestedString]: the string at a path of fields, or the empty string
    when the path is absent or does not end in a string. *)
Fixpoint getNestedString (m : object) (path : list string) : string :=
  match path with
  | [] => EmptyString
  | [k] => match field k m with Some (VString s) => s | _ => EmptyString end
  | k :: path' =>
      match field k m with
      | Some (VMap m') => getNestedString m' path'
      | _ => EmptyString
      end
  end.

Definition GetNamespace (u : Unstructured) : string :=
  getNestedString (Object u) ["metadata"; "namespace"].
Definition GetName (u : Unstructured) : string :=
  getNestedString (Object u) ["metadata"; "name"].
Definition GetAPIVersion (u : Unstructured) : string :=
  getNestedString (Object u) ["apiVersion"].
Definition GetKind (u : Unstructured) : string :=
  getNestedString (Object u) ["kind"].

(** Values are immutable here, so a deep copy is the value itself. *)
Definition DeepCopy (u : Unstructured) : Unstructured := u.

(** [watch.EventType] is a string type with five declared constants. *)
Abbreviation EventType := string.
Module watch.
Definition Added : EventType := "ADDED".
Definition Modified : EventType := "MODIFIED".
Definition Deleted : EventType := "DELETED".
Definition Bookmark : EventType := "BOOKMARK".
Definition Error : EventType := "ERROR".
End watch.

(** [watch.Event]; the dynamic client delivers [*unstructured.Unstructured]
    objects, which is what the type assertion of [processEvent] expects. *)
Record WatchEvent := { Type_ : EventType; Object_ : Unstructured }.

Record GroupVersionResource := { Group : string; Version : string; Resource : string }.

(** Errors of the API client, classified by [errors.ReasonForError]. *)
Inductive StatusReason :=
| StatusReasonUnknown
| StatusReasonNotFound
| StatusReasonMethodNotAllowed
| StatusReasonOther (name : string).

Inductive APIError :=
| StatusError (reason : StatusReason) (message : string)
| PlainError (message : string).

Definition ReasonForError (err : APIError) : StatusReason :=
  match err with
  | StatusError reason _ => reason
  | PlainError _ => StatusReasonUnknown
  end.

Definition IsNotFound (err : APIError) : bool :=
  match ReasonForError err with StatusReasonNotFound => true | _ => false end.

Definition IsMethodNotSupported (err : APIError) : bool :=
  match ReasonForError err with StatusReasonMethodNotAllowed => true | _ => false end.

(** The error of a poll: the condition's own error, or the sentinel
    [wait.ErrWaitTimeout] of the poller. *)
Inductive PollError :=
| ErrWaitTimeout
| ConditionError (err : APIError).

(** [time.Second], a [time.Duration] in nanoseconds. *)
Definition Second : Z := 1000000000.

(** [strings.ToLower] is library code (it lowercases every Unicode letter
    and replaces invalid UTF-8): the development takes it as it comes. *)
Class Strings := {
  ToLower : string → string;
}.

(** What [strings.ToLower] does to a text that is all ASCII: the bytes
    [A-Z] become [a-z] and the others are kept. *)
Definition lower_byte (c : ascii) : ascii :=
  let n := nat_of_ascii c in
  if (65 <=? n)%nat && (n <=? 90)%nat then ascii_of_nat (n + 32) else c.

Fixpoint asciiLower (s : string) : string :=
  match s with
  | EmptyString => EmptyString
  | String c r => String (lower_byte c) (asciiLower r)
  end.

Fixpoint isASCII (s : string) : bool :=
  match s with
  | EmptyString => true
  | String c r => (nat_of_ascii c <? 128)%nat && isASCII r
  end.

Definition lowersASCII `{Strings} : Prop :=
  ∀ s, isASCII s = true → ToLower s = asciiLower s.

(** [strings.Builder]: the bytes written so far. *)
Definition Builder := string.
Definition WriteString (buf : Builder) (s : string) : Builder := buf +:+ s.
Definition WriteByte (buf : Builder) (c : ascii) : Builder := buf +:+ String c EmptyString.

(** The diff library ([gojsondiff] and its ASCII formatter) as an
    interface: [CompareObjects left right], [Modified diff] and
    [NewAsciiFormatter(left, {Coloring}).Format(diff)]. *)
Class DiffEngine := {
  Diff : Type;
  CompareObjects : object → object → Diff;
  Modified : Diff → bool;
  AsciiFormat : object → bool → Diff → string + string;
}.

End K8s.


(** ** main.go *)

Module Main.
Import K8s Format.

Definition emptyUnstructured : Unstructured := {| Object := [] |}.

Definition getKey `{Strings} (o : Unstructured) : string :=
  let buf : Builder := EmptyString in
  let ns := GetNamespace o in
  let buf :=
    if negb (Nat.eqb (String.length ns) 0)
    then WriteByte (WriteString buf ns) "/"
    else buf in
  let buf := WriteString buf (GetName o) in
  let buf := WriteByte buf " " in
  let api := GetAPIVersion o in
  let buf :=
    if negb (Nat.eqb (String.length api) 0)
    then WriteByte (WriteString buf api) "/"
    else buf in
  let buf := WriteString buf (ToLower (GetKind o)) in
  buf.

(** The ObjectKey as the specification words it. *)
Definition ObjectKey `{Strings} (namespace name apiVersion kind : string) : string :=
  (if decide (namespace = EmptyString) then EmptyString else namespace +:+ "/")
  +:+ name +:+ " "
  +:+ (if decide (apiVersion = EmptyString) then EmptyString else apiVersion +:+ "/")
  +:+ ToLower kind.

(** What a watch loop touches: its cache (a Go map, shared by reference
    between the calls of one loop) and, in the order they happen, the
    effects it has on the rest of the process. *)
Inductive LogEntry :=
| LogFormatError (err : string)                          (* "error formatting diff: " *)
| LogWatchError (gvr : GroupVersionResource) (err : PollError). (* "error watching resources" *)

Inductive Effect :=
| EWatch (gvr : GroupVersionResource)   (* dc.Resource(gvr).Watch(...) *)
| ESleep (d : Z)                        (* the poller waits one interval *)
| EStop                                 (* w.Stop() *)
| ESend (e : Event)                     (* out <- e *)
| ELog (l : LogEntry).                  (* klog.Error / klog.Errorf *)

Record Loop := {
  cache : gmap string Unstructured;
  trace : list Effect;
}.

Definition emit (e : Effect) : State Loop unit :=
  modify (λ w, {| cache := cache w; trace := trace w ++ [e] |}).

Definition setCache (k : string) (v : Unstructured) : State Loop unit :=
  modify (λ w, {| cache := <[k := v]> (cache w); trace := trace w |}).

Definition deleteCache (k : string) : State Loop unit :=
  modify (λ w, {| cache := delete k (cache w); trace := trace w |}).

(** The loop [w] with its cache replaced. *)
Definition withCache (w : Loop) (c : gmap string Unstructured) : Loop :=
  {| cache := c; trace := trace w |}.

(** The loop [w] after the effects [es]. *)
Definition addTrace (w : Loop) (es : list Effect) : Loop :=
  {| cache := cache w; trace := trace w ++ es |}.

(** The effects of [n] failed polls, each followed by one interval of
    waiting. *)
Fixpoint retries (interval : Z) (gvr : GroupVersionResource) (n : nat) : list Effect :=
  match n with
  | O => []
  | S n' => EWatch gvr :: ESleep interval :: retries interval gvr n'
  end.

Definition logged (w : Loop) : list LogEntry :=
  omap (λ e, match e with ELog l => Some l | _ => None end) (trace w).

Definition sent (w : Loop) : list Event :=
  omap (λ e, match e with ESend ev => Some ev | _ => None end) (trace w).

Section Pipeline.
Context `{Strings} `{DiffEngine}.

(** The package-level variables read by [processEvent]. *)
Variable namespaceFilter : string → bool.
Variable colorize : bool.

(** Lines 103-115 of [processEvent]: compare, and render if modified. *)
Definition diffAndRender (now : Z) (key : string) (old new : Unstructured)
  : State Loop (option Event) :=
  let diff := CompareObjects (Object old) (Object new) in
  if negb (Modified diff) then mret None
  else
    match AsciiFormat (Object old) colorize diff with
    | inr err => emit (ELog (LogFormatError err)) ;; mret None
    | inl text => mret (Some {| Timestamp := now; Name := key; Data := text |})
    end.

(** [processEvent]; [now] is the reading of [time.Now()]. *)
Definition processEvent (now : Z) (event : WatchEvent) : State Loop (option Event) :=
  if bool_decide (Type_ event ∈ [watch.Added; watch.Modified; watch.Deleted; watch.Bookmark])
  then
    let new := DeepCopy (Object_ event) in
    if negb (namespaceFilter (GetNamespace new)) then mret None
    else
      let key := getKey new in
      w ← get;
      let old := default emptyUnstructured (cache w !! key) in
      '(old, new) ←
        (if bool_decide (Type_ event = watch.Deleted)
         then deleteCache key ;; mret (new, emptyUnstructured)
         else setCache key new ;; mret (old, new));
      diffAndRender now key old new
  else mret None.

(** The handling of a delete event as the specification words it: the
    baseline of the diff is the state found in the cache. *)
Definition processDelete_spec (now : Z) (object : Unstructured)
  : State Loop (option Event) :=
  let key := getKey object in
  w ← get;
  let old := default emptyUnstructured (cache w !! key) in
  deleteCache key ;;
  diffAndRender now key old emptyUnstructured.

(** One round of the [select] in [processEvents], as the environment
    resolves it. *)
Inductive Select :=
| SelStop                                (* <-stopCh *)
| SelClosed                              (* the watch channel was closed *)
| SelRecv (now : Z) (event : WatchEvent). (* an event arrived *)

(** [processEvents] against the rounds the environment provides; [None]
    when the loop is still blocked in [select] after them. *)
Fixpoint processEvents (in_ : list Select) : State Loop (option bool) :=
  match in_ with
  | [] => mret None
  | SelStop :: _ => mret (Some false)
  | SelClosed :: _ => mret (Some true)
  | SelRecv now event :: rest =>
      e ← processEvent now event;
      match e with
      | Some e => emit (ESend e)
      | None => mret tt
      end ;;
      processEvents rest
  end.

(** One call of [Watch] as the environment answers it.  [cancelled] says
    whether [stopCh] is closed when the poller waits for its next tick. *)
Inductive Attempt :=
| WatchFails (err : APIError) (cancelled : bool)
| WatchOpens (in_ : list Select).

(** The condition closure of [watchResource]: the watch it assigns to [w]
    and the pair it returns. *)
Definition condition (gvr : GroupVersionResource) (a : Attempt)
  : State Loop (option (list Select) * (bool * option APIError)) :=
  emit (EWatch gvr) ;;
  match a with
  | WatchOpens in_ => mret (Some in_, (true, None))
  | WatchFails err _ =>
      if IsNotFound err then mret (None, (false, None))
      else mret (None, (false, Some err))
  end.

Definition cancelledAfter (a : Attempt) : bool :=
  match a with WatchFails _ c => c | WatchOpens _ => false end.

(** [wait.PollImmediateUntil(interval, condition, stopCh)]: the condition
    is tried at once and then after every interval, until it reports
    done, fails, or [stopCh] is closed.  [None]: still polling. *)
Fixpoint PollImmediateUntil (interval : Z) (gvr : GroupVersionResource)
    (attempts : list Attempt)
  : State Loop (option (option (list Select) * option PollError)) :=
  match attempts with
  | [] => mret None
  | a :: rest =>
      r ← condition gvr a;
      let '(w, (done_, err)) :=
        (r : option (list Select) * (bool * option APIError)) in
      match err with
      | Some err => mret (Some (w, Some (ConditionError err)))
      | None =>
          if done_ then mret (Some (w, None))
          else if cancelledAfter a then mret (Some (w, Some ErrWaitTimeout))
          else emit (ESleep interval) ;; PollImmediateUntil interval gvr rest
      end
  end.

(** Where a watch loop stands once the environment has nothing more to
    offer: [Stopped] is the return of [watchResource]. *)
Inductive Status := Connecting | Streaming | Stopped.

Definition isWaitTimeout (err : PollError) : bool :=
  match err with ErrWaitTimeout => true | ConditionError _ => false end.

Definition pollErrorIsMethodNotSupported (err : PollError) : bool :=
  match err with ErrWaitTimeout => false | ConditionError e => IsMethodNotSupported e end.

(** [watchResource]: one element of [rounds] per iteration of the outer
    loop, holding the answers to the polls of that iteration. *)
Fixpoint watchResource (gvr : GroupVersionResource) (rounds : list (list Attempt))
  : State Loop Status :=
  match rounds with
  | [] => mret Connecting
  | attempts :: rest =>
      r ← PollImmediateUntil Second gvr attempts;
      match r with
      | None => mret Connecting
      | Some (_, Some err) =>
          (if negb (isWaitTimeout err) && negb (pollErrorIsMethodNotSupported err)
           then emit (ELog (LogWatchError gvr err))
           else mret tt) ;;
          mret Stopped
      | Some (None, None) => mret Stopped
      | Some (Some in_, None) =>
          ok ← processEvents in_;
          match ok with
          | None => mret Streaming
          | Some ok =>
              emit EStop ;;
              if negb ok then mret Stopped else watchResource gvr rest
          end
      end
  end.

End Pipeline.

(** *** The initial listing *)

(** [cacheResource]: the items of [dc.Resource(gvr).List(...)], or its
    error, turned into the cache a watch loop starts from. *)
Definition cacheResource `{Strings} (listed : APIError + list Unstructured)
  : gmap string Unstructured :=
  let cache : gmap string Unstructured := ∅ in
  match listed with
  | inr items => fold_left (λ cache o, <[getKey o := DeepCopy o]> cache) items cache
  | inl _ => cache
  end.

(** Every entry of a cache sits under the key of its own object. *)
Definition keyed `{Strings} (c : gmap string Unstructured) : Prop :=
  ∀ k o, c !! k = Some o → getKey o = k.

(** The rounds of a watch channel that delivers [events] and nothing
    else. *)
Definition deliveries (events : list (Z * WatchEvent)) : list Select :=
  map (λ p, SelRecv (fst p) (snd p)) events.

(** The receive case of [processEvents] (lines 127-130) for one delivery:
    [processEvent], and the send of its event when there is one. *)
Definition receive `{Strings} `{DiffEngine} (namespaceFilter : string → bool)
    (colorize : bool) (w : Loop) (p : Z * WatchEvent) : Loop :=
  let '(e, w1) := processEvent namespaceFilter colorize (fst p) (snd p) w in
  match e with
  | Some e => addTrace w1 [ESend e]
  | None => w1
  end.

(** *** The dispatcher *)

(** [metav1.APIResource] and [metav1.APIResourceList], as far as
    [filterResources] reads them; [schema.GroupVersion]. *)
Record APIResource := { ResourceName : string }.
Record APIResourceList := { GroupVersion_ : string; APIResources : list APIResource }.
Record GroupVersion := { GVGroup : string; GVVersion : string }.

(** One round of the [select] around the send on [in]. *)
Inductive SendRound :=
| SendStop   (* <-stopCh *)
| SendOk.    (* in <- descriptor *)

(** What [filterResources] touches: the descriptors sent on [in], whether
    [in] is closed, the errors logged, and the rounds of [select] the
    environment still has to offer. *)
Record Dispatch := {
  queue : list GroupVersionResource;
  closed : bool;
  parseErrors : list string;
  rounds : list SendRound;
}.

(** How a loop body ends: with the function still running, with [return],
    or blocked for good in a [select] no case of which gets ready. *)
Inductive Flow := Running | Returned | Blocked.

Section Dispatcher.
(** [schema.ParseGroupVersion], which is library code. *)
Variable ParseGroupVersion : string → GroupVersion + string.
Variables gvFilter gvrFilter : string → bool.

(** The [select] of lines 207-211. *)
Definition trySend (x : GroupVersionResource) : State Dispatch Flow :=
  d ← get;
  match rounds d with
  | [] => mret Blocked
  | SendStop :: rest =>
      modify (λ d, {| queue := queue d; closed := closed d;
                      parseErrors := parseErrors d; rounds := rest |}) ;;
      mret Returned
  | SendOk :: rest =>
      modify (λ d, {| queue := queue d ++ [x]; closed := closed d;
                      parseErrors := parseErrors d; rounds := rest |}) ;;
      mret Running
  end.

(** The inner loop, over [g.APIResources]. *)
Fixpoint sendResources (groupVersion : string) (gv : GroupVersion)
    (rs : list APIResource) : State Dispatch Flow :=
  match rs with
  | [] => mret Running
  | r :: rs' =>
      if negb (gvrFilter (groupVersion +:+ "/" +:+ ResourceName r))
      then sendResources groupVersion gv rs'
      else
        flow ← trySend {| Group := GVGroup gv; Version := GVVersion gv;
                          Resource := ResourceName r |};
        match flow with
        | Running => sendResources groupVersion gv rs'
        | Returned => mret Returned
        | Blocked => mret Blocked
        end
  end.

(** The outer loop, over [resources]. *)
Fixpoint sendGroups (resources : list APIResourceList) : State Dispatch Flow :=
  match resources with
  | [] => mret Returned
  | g :: resources' =>
      if negb (gvFilter (GroupVersion_ g)) then sendGroups resources'
      else
        match ParseGroupVersion (GroupVersion_ g) with
        | inr err =>
            modify (λ d, {| queue := queue d; closed := closed d;
                            parseErrors := parseErrors d ++ [err];
                            rounds := rounds d |}) ;;
            sendGroups resources'
        | inl gv =>
            flow ← sendResources (GroupVersion_ g) gv (APIResources g);
            match flow with
            | Running => sendGroups resources'
            | Returned => mret Returned
            | Blocked => mret Blocked
            end
        end
  end.

(** [filterResources]: the loops, and the deferred [close(in)] when the
    function returns. *)
Definition filterResources (resources : list APIResourceList) : State Dispatch Flow :=
  flow ← sendGroups resources;
  match flow with
  | Blocked => mret Blocked
  | _ =>
      modify (λ d, {| queue := queue d; closed := true;
                      parseErrors := parseErrors d; rounds := rounds d |}) ;;
      mret Returned
  end.

(** The descriptors of one group-version that pass the second filter. *)
Definition descriptors (groupVersion : string) (gv : GroupVersion)
    (rs : list APIResource) : list GroupVersionResource :=
  map (λ r, {| Group := GVGroup gv; Version := GVVersion gv; Resource := ResourceName r |})
      (List.filter (λ r, gvrFilter (groupVersion +:+ "/" +:+ ResourceName r)) rs).

(** The descriptors of the catalog that pass both filters, in catalog
    order. *)
Definition matching (resources : list APIResourceList) : list GroupVersionResource :=
  flat_map (λ g,
    if gvFilter (GroupVersion_ g) then
      match ParseGroupVersion (GroupVersion_ g) with
      | inl gv => descriptors (GroupVersion_ g) gv (APIResources g)
      | inr _ => []
      end
    else []) resources.

End Dispatcher.

(** The number of sends the environment lets through before it raises
    cancellation or stops answering. *)
Fixpoint granted (rs : list SendRound) : nat :=
  match rs with
  | SendOk :: rs' => S (granted rs')
  | _ => 0
  end.

(** The dispatcher [d] with its logged errors replaced. *)
Definition withParseErrors (d : Dispatch) (errs : list string) : Dispatch :=
  {| queue := queue d; closed := closed d; parseErrors := errs; rounds := rounds d |}.

(** Where sending the descriptors [xs], one after the other, leaves the
    dispatcher: [Running] when all of them were sent. *)
Definition afterSends (xs : list GroupVersionResource) (d : Dispatch) : Flow * Dispatch :=
  let k := granted (rounds d) in
  (if Nat.leb (length xs) k then Running
   else match drop k (rounds d) with [] => Blocked | _ :: _ => Returned end,
   {| queue := queue d ++ take k xs;
      closed := closed d;
      parseErrors := parseErrors d;
      rounds := if Nat.leb (length xs) k then drop (length xs) (rounds d)
                else drop (S k) (rounds d) |}).

(** *** The printer *)

(** The standard output as the sequence of [fmt.Print] calls, and the
    formatter object. *)
Record Console (F : Type) := {
  stdout : list string;
  formatter : F;
}.
Arguments stdout {F} _.
Arguments formatter {F} _.

Section Printer.
Context {F : Type} `{EventFormatter F}.

Definition Print (s : string) : State (Console F) unit :=
  modify (λ c, {| stdout := stdout c ++ [s]; formatter := formatter c |}).

(** [fmt.Print(format(e))] with [format] the method value
    [formatter.Format]. *)
Definition printFormatted (e : Event) : State (Console F) unit :=
  modify (λ c,
    let '(text, f) := Format (formatter c) e in
    {| stdout := stdout c ++ [text]; formatter := f |}).

(** [printEvents] with [out] the events buffered in the channel and no
    sender left.  While [stopCh] is open the loop receives; once it is
    closed and an event is buffered, both cases of the [select] are ready
    and [sched] says which one runs ([true]: the receive).  The result is
    what is left in the channel at the return, [None] if the loop blocks. *)
Fixpoint printEvents (out : list Event) (stopCh : bool) (sched : list bool)
  : State (Console F) (option (list Event)) :=
  match out with
  | [] => if stopCh then mret (Some []) else mret None
  | e :: out' =>
      if stopCh then
        match sched with
        | true :: sched' => printFormatted e ;; printEvents out' stopCh sched'
        | _ => mret (Some out)
        end
      else printFormatted e ;; printEvents out' stopCh sched
  end.

(** [flushEvents]: the [default] case runs when nothing is buffered. *)
Fixpoint flushEvents (out : list Event) : State (Console F) (list Event) :=
  match out with
  | [] => mret []
  | e :: out' => printFormatted e ;; flushEvents out'
  end.

(** Lines 283-286 of [main]. *)
Definition mainOutput (out : list Event) (stopCh : bool) (sched : list bool)
  : State (Console F) (option (list Event)) :=
  c ← get;
  Print (Preamble (formatter c)) ;;
  r ← printEvents out stopCh sched;
  match r with
  | None => mret None
  | Some out' =>
      out'' ← flushEvents out';
      c ← get;
      Print (Epilogue (formatter c)) ;;
      mret (Some out'')
  end.

(** The texts a formatter produces for a run of events, in order. *)
Fixpoint formatAll (f : F) (events : list Event) : list string * F :=
  match events with
  | [] => ([], f)
  | e :: rest =>
      let '(text, f') := Format f e in
      let '(texts, f'') := formatAll f' rest in
      (text :: texts, f'')
  end.

(** Everything written to the standard output, as one string. *)
Definition rendered (c : Console F) : string :=
  foldr String.append EmptyString (stdout c).

(** The console after the texts of [events] have been printed. *)
Definition printAll (c : Console F) (events : list Event) : Console F :=
  let '(texts, f) := formatAll (formatter c) events in
  {| stdout := stdout c ++ texts; formatter := f |}.

End Printer.

End Main.


(** ** Concrete collaborators for running the code

    Instances of the library interfaces on which the definitions above
    evaluate, used for the worked examples. *)

Module Fixtures.
Import K8s Format Main.

(** Structural equality of documents. *)
Fixpoint value_eqb (a b : value) {struct a} : bool :=
  match a, b with
  | VNull, VNull => true
  | VBool x, VBool y => Bool.eqb x y
  | VInt x, VInt y => Z.eqb x y
  | VString x, VString y => String.eqb x y
  | VSlice xs, VSlice ys =>
      (fix go (l1 l2 : list value) {struct l1} : bool :=
         match l1, l2 with
         | [], [] => true
         | x :: l1', y :: l2' => value_eqb x y && go l1' l2'
         | _, _ => false
         end) xs ys
  | VMap xs, VMap ys =>
      (fix go (l1 l2 : object) {struct l1} : bool :=
         match l1, l2 with
         | [], [] => true
         | (k, x) :: l1', (k', y) :: l2' =>
             String.eqb k k' && value_eqb x y && go l1' l2'
         | _, _ => false
         end) xs ys
  | _, _ => false
  end.

Definition object_eqb (a b : object) : bool := value_eqb (VMap a) (VMap b).

(** A diff engine that reports a modification exactly when the two
    documents differ structurally and renders with [render]. *)
Definition structuralEngine (render : object → object → string + string) : DiffEngine := {|
  Diff := object * object;
  CompareObjects left right := (left, right);
  Modified d := negb (object_eqb (fst d) (snd d));
  AsciiFormat left _ d := render left (snd d);
|}.

Definition renderOk : object → object → string + string := λ _ _, inl "changed".
Definition renderFails : object → object → string + string := λ _ _, inr "cannot render".

(** Decimal digits of a natural number. *)
Definition digit (n : nat) : ascii := ascii_of_nat (48 + n mod 10).

Fixpoint decimal_fuel (fuel n : nat) (acc : string) : string :=
  match fuel with
  | O => acc
  | S fuel' =>
      let acc := String (digit n) acc in
      if Nat.ltb n 10 then acc else decimal_fuel fuel' (n / 10) acc
  end.

Definition decimal (n : nat) : string := decimal_fuel (S n) n EmptyString.

(** A library instance with whole microseconds in place of [float64] and
    a [%q] that adds the quotes only. *)
Definition plainLib : GoLib := {|
  float64 := Z;
  float64_of_int64 x := x;
  float64_div x y := (x / y)%Z;
  fmt_f x := decimal (Z.to_nat x) +:+ ".000000";
  fmt_q s := quoted s;
  time_Format t _ := decimal (Z.to_nat t);
|}.

(** The object of the end-to-end scenario:
    [{ns:"a", name:"x", kind:"Widget", spec:{replicas:n}}]. *)
Definition widget (replicas : Z) : Unstructured := {|
  Object := [("kind", VString "Widget");
             ("metadata", VMap [("namespace", VString "a"); ("name", VString "x")]);
             ("spec", VMap [("replicas", VInt replicas)])]
|}.

(** The object a bookmark event carries: its kind and a resource version. *)
Definition bookmarkObject (resourceVersion : string) : Unstructured := {|
  Object := [("apiVersion", VString "v1"); ("kind", VString "Widget");
             ("metadata", VMap [("resourceVersion", VString resourceVersion)])]
|}.

Definition widgets : GroupVersionResource :=
  {| Group := "example.com"; Version := "v1"; Resource := "widgets" |}.

Definition anyNamespace : string → bool := Filter.NewFilter [].

(** A stand-in for [strings.ToLower] that agrees with it on ASCII text,
    which is all the objects below hold. *)
Definition asciiStrings : Strings := {| ToLower := asciiLower |}.

(** A stand-in for [schema.ParseGroupVersion]: the text before the only
    slash is the group and the text after it the version, a text with no
    slash is a version of the core group, and more than one slash is an
    error. *)
Fixpoint splitSlash (s : string) : list string :=
  match s with
  | EmptyString => [EmptyString]
  | String c r =>
      if Ascii.eqb c "/" then EmptyString :: splitSlash r
      else match splitSlash r with
           | [] => [String c EmptyString]
           | part :: parts => String c part :: parts
           end
  end.

Definition parseGroupVersion (gv : string) : GroupVersion + string :=
  if Nat.eqb (String.length gv) 0 || String.eqb gv "/"
  then inl {| GVGroup := EmptyString; GVVersion := EmptyString |}
  else match splitSlash gv with
       | [version] => inl {| GVGroup := EmptyString; GVVersion := version |}
       | [group; version] => inl {| GVGroup := group; GVVersion := version |}
       | _ => inr ("unexpected GroupVersion string: " +:+ gv)
       end.

(** A catalog with a group-version that does not parse between two that
    do. *)
Definition catalog : list APIResourceList :=
  [ {| GroupVersion_ := "apps/v1";
       APIResources := [ {| ResourceName := "deployments" |};
                         {| ResourceName := "statefulsets" |} ] |};
    {| GroupVersion_ := "a/b/c"; APIResources := [ {| ResourceName := "things" |} ] |};
    {| GroupVersion_ := "v1"; APIResources := [ {| ResourceName := "pods" |} ] |} ].

Definition freshDispatch (rs : list SendRound) : Dispatch :=
  {| queue := []; closed := false; parseErrors := []; rounds := rs |}.

Definition emptyLoop : Loop := {| cache := ∅; trace := [] |}.

Definition changeEvent : Event :=
  {| Timestamp := 5000; Name := "a/x widget"; Data := "changed" |}.

Definition freshConsole {F} (f : F) : Console F := {| stdout := []; formatter := f |}.

(** The formatters over [plainLib]. *)
Definition plainDefault : EventFormatter DefaultFormatter :=
  @DefaultFormatter_EventFormatter plainLib.
Definition plainStateless : EventFormatter Stateless.TraceEventFormatter :=
  @Stateless.TraceEventFormatter_EventFormatter plainLib.
Definition plainStateful : EventFormatter Stateful.TraceEventFormatter :=
  @Stateful.TraceEventFormatter_EventFormatter plainLib.

End Fixtures.


(* ================================================================== *)
(** * Properties *)
(* ================================================================== *)

(** ** Name filter *)

Section FilterFacts.
Import Filter.

Lemma countPrefix_from_shift rest ch i :
  countPrefix_from rest ch i = i + countPrefix_from rest ch 0.
Proof.
  revert i. induction rest as [|c r IH]; intros i; simpl.
  - lia.
  - destruct (Ascii.eqb c ch); [|lia].
    rewrite (IH (S i)), (IH 1). lia.
Qed.

Lemma countPrefix_cons_eq ch r :
  countPrefix (String ch r) ch = S (countPrefix r ch).
Proof.
  unfold countPrefix. simpl. rewrite Ascii.eqb_refl.
  rewrite countPrefix_from_shift. reflexivity.
Qed.

Lemma countPrefix_cons_ne c ch r :
  c ≠ ch → countPrefix (String c r) ch = 0.
Proof.
  intros Hne. unfold countPrefix. simpl.
  destruct (Ascii.eqb_spec c ch); [contradiction|reflexivity].
Qed.

(** [countPrefix] and the slice [name[count:]] decompose a pattern into
    its markers and its stripped name. *)
Lemma countPrefix_splits p :
  splits p (countPrefix p "!") (string_drop (countPrefix p "!") p).
Proof.
  induction p as [|c r [IH1 IH2]].
  - split; [reflexivity|]. intros r. discriminate.
  - destruct (Ascii.eqb_spec c "!"%char) as [->|Hne].
    + rewrite countPrefix_cons_eq. split.
      * change (String "!" r = String "!" (string_rep (countPrefix r "!") "!"
                                  +:+ string_drop (countPrefix r "!") r)).
        f_equal. exact IH1.
      * exact IH2.
    + rewrite countPrefix_cons_ne by assumption. simpl. split; [reflexivity|].
      intros r' [= Hc _]. contradiction.
Qed.

(** The decomposition is unique. *)
Lemma splits_unique p k n :
  splits p k n → k = countPrefix p "!" ∧ n = string_drop (countPrefix p "!") p.
Proof.
  intros [-> Hn]. induction k as [|k IH].
  - change (string_rep 0 "!" +:+ n) with n.
    destruct n as [|c r]; [split; reflexivity|].
    assert (c ≠ "!"%char) as Hc by (intros ->; exact (Hn r eq_refl)).
    rewrite countPrefix_cons_ne by assumption. split; reflexivity.
  - change (string_rep (S k) "!" +:+ n)
      with (String "!" (string_rep k "!" +:+ n)).
    rewrite countPrefix_cons_eq. destruct IH as [IH1 IH2].
    split; [f_equal; exact IH1 | exact IH2].
Qed.

Lemma even_mod2 k : Nat.eqb (k mod 2) 0 = true ↔ Nat.Even k.
Proof.
  rewrite Nat.eqb_eq. rewrite <- Nat.even_spec.
  rewrite <- Nat.bit0_mod, Nat.bit0_odd, <- Nat.negb_even.
  destruct (Nat.even k); simpl; split; congruence.
Qed.

Lemma odd_mod2 k : Nat.eqb (k mod 2) 0 = false ↔ Nat.Odd k.
Proof.
  rewrite <- Nat.odd_spec.
  rewrite <- Nat.bit0_mod, Nat.bit0_odd.
  destruct (Nat.odd k); simpl; split; congruence.
Qed.

Lemma included_nil n : ¬ included [] n.
Proof. intros (p & k & Hp & _). inversion Hp. Qed.

Lemma excluded_nil n : ¬ excluded [] n.
Proof. intros (p & k & Hp & _). inversion Hp. Qed.

Lemma included_cons p names n :
  included (p :: names) n ↔
  (Nat.Even (countPrefix p "!") ∧ string_drop (countPrefix p "!") p = n)
  ∨ included names n.
Proof.
  split.
  - intros (q & k & Hq & Hs & Hk). apply elem_of_cons in Hq as [->|Hq].
    + left. apply splits_unique in Hs as [-> ->]. split; [assumption|reflexivity].
    + right. exists q, k. auto.
  - intros [[Hk <-]|(q & k & Hq & Hs & Hk)].
    + exists p, (countPrefix p "!"). split; [left|].
      split; [apply countPrefix_splits | assumption].
    + exists q, k. split; [right; assumption | auto].
Qed.

Lemma excluded_cons p names n :
  excluded (p :: names) n ↔
  (Nat.Odd (countPrefix p "!") ∧ string_drop (countPrefix p "!") p = n)
  ∨ excluded names n.
Proof.
  split.
  - intros (q & k & Hq & Hs & Hk). apply elem_of_cons in Hq as [->|Hq].
    + left. apply splits_unique in Hs as [-> ->]. split; [assumption|reflexivity].
    + right. exists q, k. auto.
  - intros [[Hk <-]|(q & k & Hq & Hs & Hk)].
    + exists p, (countPrefix p "!"). split; [left|].
      split; [apply countPrefix_splits | assumption].
    + exists q, k. split; [right; assumption | auto].
Qed.

(** What the loop of [NewFilter] leaves in the two sets. *)
Lemma fold_insertName names s n :
  (n ∈ include (fold_left insertName names s) ↔ n ∈ include s ∨ included names n)
  ∧ (n ∈ exclude (fold_left insertName names s) ↔ n ∈ exclude s ∨ excluded names n).
Proof.
  revert s. induction names as [|p names IH]; intros s; simpl.
  - split; split; auto; intros [H|H]; auto.
    + destruct (included_nil _ H).
    + destruct (excluded_nil _ H).
  - destruct (IH (insertName s p)) as [IHi IHe].
    rewrite IHi, IHe, included_cons, excluded_cons. clear IH IHi IHe.
    unfold insertName.
    destruct (Nat.eqb (countPrefix p "!" mod 2) 0) eqn:E; simpl.
    + pose proof (proj1 (even_mod2 _) E) as Hev.
      assert (¬ Nat.Odd (countPrefix p "!")) as Hno.
      { intros Ho. apply odd_mod2 in Ho. congruence. }
      rewrite elem_of_union, elem_of_singleton.
      split; [split; intros; intuition congruence|].
      split; [tauto|]. intros [H|[[H _]|H]]; tauto.
    + pose proof (proj1 (odd_mod2 _) E) as Hod.
      assert (¬ Nat.Even (countPrefix p "!")) as Hno.
      { intros He. apply even_mod2 in He. congruence. }
      rewrite elem_of_union, elem_of_singleton.
      split; [|split; intros; intuition congruence].
      split; [tauto|]. intros [H|[[H _]|H]]; tauto.
Qed.

Lemma buildSets_include names n :
  n ∈ include (buildSets names) ↔ included names n.
Proof.
  unfold buildSets. rewrite (proj1 (fold_insertName names _ n)). simpl.
  rewrite elem_of_empty. tauto.
Qed.

Lemma buildSets_exclude names n :
  n ∈ exclude (buildSets names) ↔ excluded names n.
Proof.
  unfold buildSets. rewrite (proj2 (fold_insertName names _ n)). simpl.
  rewrite elem_of_empty. tauto.
Qed.

Lemma size_zero_iff (X : gset string) :
  Nat.eqb (size X) 0 = true ↔ ∀ n, n ∉ X.
Proof.
  rewrite Nat.eqb_eq, size_empty_iff. apply elem_of_equiv_empty.
Qed.

Lemma matches_spec s name :
  matches s name = true ↔
  ((∀ n, n ∉ include s) ∨ name ∈ include s) ∧ name ∉ exclude s.
Proof.
  unfold matches.
  destruct (Nat.eqb (size (include s)) 0) eqn:Ei; simpl.
  - pose proof (proj1 (size_zero_iff _) Ei) as Hi0.
    destruct (Nat.eqb (size (exclude s)) 0) eqn:Ee; simpl.
    + pose proof (proj1 (size_zero_iff _) Ee) as He0. split; [|reflexivity]. intros _. split; [left|]; auto.
    + case_bool_decide as Hx; split; try discriminate; try tauto.
  - assert (¬ ∀ n, n ∉ include s) as Hne.
    { intros H. pose proof (proj2 (size_zero_iff _) H). congruence. }
    case_bool_decide as Hi; simpl.
    + destruct (Nat.eqb (size (exclude s)) 0) eqn:Ee; simpl.
      * pose proof (proj1 (size_zero_iff _) Ee) as He0. split; [|reflexivity]. intros _. split; [right|]; auto.
      * case_bool_decide as Hx; split; try discriminate; try tauto.
    + split; [discriminate|]. tauto.
Qed.

End FilterFacts.

(** C2: the two sets built by [NewFilter] hold the stripped names of the
    patterns with an even, respectively odd, number of leading markers;
    the returned predicate accepts a name iff (the include set is empty
    or holds the name) and the exclude set does not hold it; built from
    no pattern at all, it accepts every name. *)
Theorem NewFilter_matches_spec (names : list string) (name : string) :
  (∀ n, n ∈ Filter.include (Filter.buildSets names) ↔ Filter.included names n)
  ∧ (∀ n, n ∈ Filter.exclude (Filter.buildSets names) ↔ Filter.excluded names n)
  ∧ (Filter.NewFilter names name = true ↔
       (Filter.include (Filter.buildSets names) = ∅ ∨ Filter.included names name)
       ∧ ¬ Filter.excluded names name)
  ∧ Filter.NewFilter [] name = true.
Proof.
  split; [intros n; apply buildSets_include|].
  split; [intros n; apply buildSets_exclude|].
  split; [|reflexivity].
  unfold Filter.NewFilter. rewrite matches_spec.
  rewrite buildSets_include, buildSets_exclude.
  assert ((∀ n, n ∉ Filter.include (Filter.buildSets names))
          ↔ Filter.include (Filter.buildSets names) = ∅) as ->; [|reflexivity].
  split.
  - intros Hn. apply leibniz_equiv, elem_of_equiv_empty. exact Hn.
  - intros -> n. apply not_elem_of_empty.
Qed.

(** C10: a pattern list holding the empty string puts the empty string
    into the include set, which is then not empty; every non-empty name
    that no other pattern includes is rejected, and the filter built from
    the empty string alone accepts the empty name only. *)
Theorem NewFilter_empty_pattern (names : list string) (name : string) :
  EmptyString ∈ names →
  name ≠ EmptyString →
  (∀ p k, p ∈ names → p ≠ EmptyString → Filter.splits p k name → ¬ Nat.Even k) →
  EmptyString ∈ Filter.include (Filter.buildSets names)
  ∧ size (Filter.include (Filter.buildSets names)) ≠ 0
  ∧ Filter.NewFilter names name = false
  ∧ (∀ n, Filter.NewFilter [EmptyString] n = true ↔ n = EmptyString).
Proof.
  intros Hin Hne Hother.
  assert (Filter.included names EmptyString) as Hinc.
  { exists EmptyString, 0. split; [assumption|]. split; [|exists 0; reflexivity].
    split; [reflexivity|]. intros r; discriminate. }
  assert (EmptyString ∈ Filter.include (Filter.buildSets names)) as Hmem
    by (apply buildSets_include; assumption).
  assert (¬ Filter.included names name) as Hnot.
  { intros (p & k & Hp & Hs & Hk). destruct (decide (p = EmptyString)) as [->|Hp'].
    - apply splits_unique in Hs as [_ Hs]. simpl in Hs. congruence.
    - exact (Hother p k Hp Hp' Hs Hk). }
  split; [assumption|]. split.
  { intros Hz. apply size_empty_iff in Hz. apply leibniz_equiv in Hz.
    rewrite Hz in Hmem. exact (not_elem_of_empty _ Hmem). }
  split.
  - destruct (Filter.NewFilter names name) eqn:E; [|reflexivity].
    apply matches_spec in E as [[Hall|Hi] _].
    + destruct (Hall _ Hmem).
    + apply buildSets_include in Hi. contradiction.
  - intros n. unfold Filter.NewFilter. rewrite matches_spec.
    rewrite !buildSets_include, buildSets_exclude.
    assert (∀ m, Filter.included [EmptyString] m ↔ m = EmptyString) as Hsingle.
    { intros m. rewrite included_cons. split.
      - intros [[_ <-]|H]; [reflexivity | destruct (included_nil _ H)].
      - intros ->. left. split; [exists 0|]; reflexivity. }
    assert (∀ m, ¬ Filter.excluded [EmptyString] m) as Hnoex.
    { intros m. rewrite excluded_cons. intros [[[k Hk] _]|H].
      - unfold Filter.countPrefix in Hk. simpl in Hk. lia.
      - destruct (excluded_nil _ H). }
    split.
    + intros [[Hall|Hi] _].
      * destruct (Hall EmptyString). apply buildSets_include, Hsingle. reflexivity.
      * apply Hsingle. assumption.
    + intros ->. split; [right; apply Hsingle; reflexivity | apply Hnoex].
Qed.

Lemma NewFilter_empty_pattern_witness :
  Filter.NewFilter [EmptyString; "!b"] "a" = false.
Proof.
  refine (proj1 (proj2 (proj2
    (NewFilter_empty_pattern [EmptyString; "!b"] "a" _ _ _)))).
  - apply elem_of_cons. left. reflexivity.
  - discriminate.
  - intros p k Hp Hne Hs Hk.
    apply elem_of_cons in Hp as [->|Hp]; [congruence|].
    apply list_elem_of_singleton in Hp as ->.
    apply splits_unique in Hs as [_ Hs]. discriminate Hs.
Defined.

(** ** Object keys *)

Lemma string_app_nil_l (b : string) : EmptyString +:+ b = b.
Proof. reflexivity. Qed.

Lemma string_app_cons (x : ascii) (a b : string) :
  String x a +:+ b = String x (a +:+ b).
Proof. reflexivity. Qed.

Lemma string_app_assoc (a b c : string) : (a +:+ b) +:+ c = a +:+ (b +:+ c).
Proof.
  induction a as [|x a IH]; [reflexivity|].
  rewrite !string_app_cons. f_equal. exact IH.
Qed.

Lemma string_app_nil_r (a : string) : a +:+ EmptyString = a.
Proof.
  induction a as [|x a IH]; [reflexivity|].
  rewrite string_app_cons. f_equal. exact IH.
Qed.

Lemma string_length_zero (s : string) :
  Nat.eqb (String.length s) 0 = true ↔ s = EmptyString.
Proof. destruct s; simpl; split; congruence. Qed.

(** C7: the key is the namespace and a slash (left out when the namespace
    is empty), the name, a space, the apiVersion and a slash (left out
    when the apiVersion is empty) and the kind as [strings.ToLower]
    returns it, whatever that library function does; with a
    [strings.ToLower] that maps [A-Z] to [a-z] in ASCII text, the key of
    an object whose kind is ASCII ends in the kind with its capitals
    replaced, and an object with namespace [a], name [x], kind [Widget]
    and no apiVersion has the key [a/x widget]. *)
Theorem getKey_ObjectKey `{K8s.Strings} (o : K8s.Unstructured) :
  Main.getKey o
  = Main.ObjectKey (K8s.GetNamespace o) (K8s.GetName o) (K8s.GetAPIVersion o) (K8s.GetKind o)
  ∧ (K8s.lowersASCII → K8s.isASCII (K8s.GetKind o) = true →
     Main.getKey o
     = (if decide (K8s.GetNamespace o = EmptyString) then EmptyString
        else K8s.GetNamespace o +:+ "/")
       +:+ K8s.GetName o +:+ " "
       +:+ (if decide (K8s.GetAPIVersion o = EmptyString) then EmptyString
            else K8s.GetAPIVersion o +:+ "/")
       +:+ K8s.asciiLower (K8s.GetKind o))
  ∧ (K8s.lowersASCII →
     K8s.GetNamespace o = "a" → K8s.GetName o = "x" →
     K8s.GetAPIVersion o = EmptyString → K8s.GetKind o = "Widget" →
     Main.getKey o = "a/x widget").
Proof.
  assert (Main.getKey o
    = Main.ObjectKey (K8s.GetNamespace o) (K8s.GetName o)
        (K8s.GetAPIVersion o) (K8s.GetKind o)) as Hkey.
  { unfold Main.getKey, Main.ObjectKey, K8s.WriteString, K8s.WriteByte.
    destruct (decide (K8s.GetNamespace o = EmptyString)) as [Hns|Hns];
    destruct (decide (K8s.GetAPIVersion o = EmptyString)) as [Hapi|Hapi].
    all: pose proof (string_length_zero (K8s.GetNamespace o)) as Hn.
    all: pose proof (string_length_zero (K8s.GetAPIVersion o)) as Ha.
    all: destruct (Nat.eqb (String.length (K8s.GetNamespace o)) 0);
         destruct (Nat.eqb (String.length (K8s.GetAPIVersion o)) 0);
         try (exfalso; intuition congruence).
    all: cbn [negb]; rewrite ?Hns, ?Hapi, ?string_app_assoc;
         rewrite ?string_app_cons, ?string_app_nil_l; reflexivity. }
  split; [exact Hkey|]. split.
  - intros Hlower Hascii. rewrite Hkey. unfold Main.ObjectKey.
    rewrite (Hlower _ Hascii). reflexivity.
  - intros Hlower Hns Hname Hapi Hkind. rewrite Hkey, Hns, Hname, Hapi, Hkind.
    unfold Main.ObjectKey. rewrite (Hlower "Widget" eq_refl). reflexivity.
Qed.

Lemma getKey_ObjectKey_witness :
  @Main.getKey Fixtures.asciiStrings (Fixtures.widget 1) = "a/x widget".
Proof.
  apply (proj2 (proj2 (@getKey_ObjectKey Fixtures.asciiStrings (Fixtures.widget 1))));
    try reflexivity.
  intros s Hascii. reflexivity.
Defined.

(** ** The printer *)

Section PrinterFacts.
Import Format Main.
Context {F : Type} `{EventFormatter F}.

Lemma formatAll_app (f : F) (xs ys : list Event) :
  formatAll f (xs ++ ys)
  = (fst (formatAll f xs) ++ fst (formatAll (snd (formatAll f xs)) ys),
     snd (formatAll (snd (formatAll f xs)) ys)).
Proof.
  revert f. induction xs as [|x xs IH]; intros f; simpl.
  - destruct (formatAll f ys); reflexivity.
  - destruct (Format f x) as [t f1]. rewrite IH.
    destruct (formatAll f1 xs) as [ts f2]; simpl.
    destruct (formatAll f2 ys); reflexivity.
Qed.

Lemma formatAll_length (f : F) (xs : list Event) :
  length (fst (formatAll f xs)) = length xs.
Proof.
  revert f. induction xs as [|x xs IH]; intros f; simpl; [reflexivity|].
  destruct (Format f x) as [t f1]. specialize (IH f1).
  destruct (formatAll f1 xs); simpl in *. f_equal. exact IH.
Qed.

Lemma printAll_nil (c : Console F) : printAll c [] = c.
Proof. unfold printAll; simpl. rewrite app_nil_r. destruct c; reflexivity. Qed.

Lemma printAll_app (c : Console F) (xs ys : list Event) :
  printAll c (xs ++ ys) = printAll (printAll c xs) ys.
Proof.
  unfold printAll. rewrite formatAll_app.
  destruct (formatAll (formatter c) xs) as [t1 f1]; simpl.
  destruct (formatAll f1 ys) as [t2 f2]; simpl.
  rewrite app_assoc. reflexivity.
Qed.

Lemma printAll_cons (c : Console F) (e : Event) (xs : list Event) :
  printAll c (e :: xs) = printAll (printAll c [e]) xs.
Proof. apply (printAll_app c [e] xs). Qed.

Lemma printFormatted_printAll (e : Event) (c : Console F) :
  printFormatted e c = (tt, printAll c [e]).
Proof.
  unfold printFormatted, modify, printAll; simpl.
  destruct (Format (formatter c) e); reflexivity.
Qed.

Lemma printAll_length (c : Console F) (xs : list Event) :
  length (stdout (printAll c xs)) = length (stdout c) + length xs.
Proof.
  unfold printAll. pose proof (formatAll_length (formatter c) xs) as Hl.
  destruct (formatAll (formatter c) xs); simpl in *.
  rewrite length_app, Hl. reflexivity.
Qed.

(** The drain pass prints what is buffered when it starts, in order, and
    returns with the channel empty. *)
Lemma flushEvents_printAll (out : list Event) (c : Console F) :
  flushEvents out c = ([], printAll c out).
Proof.
  revert c. induction out as [|e out IH]; intros c.
  - simpl. rewrite printAll_nil. reflexivity.
  - cbn [flushEvents]. unfold mbind, State_bind.
    rewrite printFormatted_printAll, IH, <- printAll_cons. reflexivity.
Qed.

(** After cancellation [printEvents] takes some prefix of the buffered
    events, as the scheduler decides, and leaves the rest. *)
Lemma printEvents_cancelled (out : list Event) (sched : list bool) (c : Console F) :
  ∃ k, k ≤ length out
       ∧ printEvents out true sched c = (Some (drop k out), printAll c (take k out)).
Proof.
  revert sched c. induction out as [|e out IH]; intros sched c.
  - exists 0. split; [reflexivity|]. simpl. rewrite printAll_nil. reflexivity.
  - destruct sched as [|[|] sched].
    + exists 0. split; [simpl; lia|]. simpl. rewrite printAll_nil. reflexivity.
    + destruct (IH sched (printAll c [e])) as (k & Hk & Hrun).
      exists (S k). split; [simpl; lia|].
      cbn [printEvents]. unfold mbind, State_bind.
      rewrite printFormatted_printAll, Hrun. simpl.
      rewrite <- printAll_cons. reflexivity.
    + exists 0. split; [simpl; lia|]. simpl. rewrite printAll_nil. reflexivity.
Qed.

Lemma mainOutput_cancelled (out : list Event) (sched : list bool) (c : Console F) :
  let c1 := {| stdout := stdout c ++ [Preamble (formatter c)]; formatter := formatter c |} in
  let c2 := printAll c1 out in
  mainOutput out true sched c
  = (Some [], {| stdout := stdout c2 ++ [Epilogue (formatter c2)];
                 formatter := formatter c2 |}).
Proof.
  intros c1 c2. unfold mainOutput, mbind, State_bind, get, Print, modify.
  fold c1.
  destruct (printEvents_cancelled out sched c1) as (k & Hk & ->).
  rewrite flushEvents_printAll, <- printAll_app, take_drop. reflexivity.
Qed.

End PrinterFacts.

(** ** Output formats *)

Section FormatFacts.
Import Format Main.
Context `{GoLib}.
#[local] Existing Instance Stateless.TraceEventFormatter_EventFormatter.
#[local] Existing Instance Stateful.TraceEventFormatter_EventFormatter.

Lemma Stateless_Format_record (e : Event) :
  Stateless.TraceEventFormatter_Format e = traceRecord e +:+ "," +:+ newline.
Proof.
  unfold Stateless.TraceEventFormatter_Format, traceRecord, quoted.
  rewrite !string_app_assoc. reflexivity.
Qed.

Lemma Stateful_Format_record (f : Stateful.TraceEventFormatter) (e : Event) :
  Stateful.TraceEventFormatter_Format f e
  = ((if Stateful.needsComma f then "," else EmptyString) +:+ newline +:+ traceRecord e,
     {| Stateful.needsComma := true |}).
Proof.
  unfold Stateful.TraceEventFormatter_Format, traceRecord, quoted.
  destruct (Stateful.needsComma f); rewrite ?string_app_assoc; reflexivity.
Qed.

(** C8, as the code has it.  The [TraceEventFormatter] with value
    receivers emits as preamble an opening bracket and a newline, renders
    every event as its record followed by a comma and a newline, and
    emits as epilogue a closing bracket and a newline.  The
    [TraceEventFormatter] with the [needsComma] field emits as preamble
    the opening bracket alone, renders every event as a newline followed
    by its record, with a comma in front for every event but the first,
    and emits as epilogue a newline, the closing bracket and a newline.
    With either, [main] prints the preamble and the epilogue also when no
    event is printed in between. *)
Theorem trace_format_envelope
    (e : Event) (f : Stateful.TraceEventFormatter) (sched : list bool) :
  (Preamble Stateless.mkTraceEventFormatter = "[" +:+ newline
   ∧ Format Stateless.mkTraceEventFormatter e
     = (traceRecord e +:+ "," +:+ newline, Stateless.mkTraceEventFormatter)
   ∧ Epilogue Stateless.mkTraceEventFormatter = "]" +:+ newline)
  ∧ (Preamble f = "["
     ∧ Format f e
       = ((if Stateful.needsComma f then "," else EmptyString)
            +:+ newline +:+ traceRecord e,
          {| Stateful.needsComma := true |})
     ∧ Epilogue f = newline +:+ "]" +:+ newline)
  ∧ mainOutput [] true sched (Fixtures.freshConsole Stateless.mkTraceEventFormatter)
    = (Some [], {| stdout := ["[" +:+ newline; "]" +:+ newline];
                   formatter := Stateless.mkTraceEventFormatter |})
  ∧ mainOutput [] true sched (Fixtures.freshConsole f)
    = (Some [], {| stdout := ["["; newline +:+ "]" +:+ newline];
                   formatter := f |}).
Proof.
  split; [|split; [|split]].
  - split; [reflexivity|]. split; [|reflexivity].
    cbn [Format Stateless.TraceEventFormatter_EventFormatter].
    rewrite Stateless_Format_record. reflexivity.
  - split; [reflexivity|]. split; [|reflexivity].
    cbn [Format Stateful.TraceEventFormatter_EventFormatter].
    apply Stateful_Format_record.
  - rewrite mainOutput_cancelled. reflexivity.
  - rewrite mainOutput_cancelled. reflexivity.
Qed.

End FormatFacts.

(** C8 as the specification states it fails on the formatter with the
    [needsComma] field: its preamble is a bare bracket, its first record
    starts with a newline and carries no comma, and its epilogue starts
    with a newline. *)
Lemma trace_format_needsComma_differs :
  let f := {| Format.Stateful.needsComma := false |} in
  let record := @Format.traceRecord Fixtures.plainLib Fixtures.changeEvent in
  @Format.Preamble _ Fixtures.plainStateful f = "["
  ∧ String.eqb (@Format.Preamble _ Fixtures.plainStateful f) ("[" +:+ newline) = false
  ∧ fst (@Format.Format _ Fixtures.plainStateful f Fixtures.changeEvent)
    = newline +:+ record
  ∧ String.eqb (fst (@Format.Format _ Fixtures.plainStateful f Fixtures.changeEvent))
               (record +:+ "," +:+ newline) = false
  ∧ @Format.Epilogue _ Fixtures.plainStateful f = newline +:+ "]" +:+ newline.
Proof. vm_compute. repeat split. Qed.

(** ** Shutdown *)

(** C6, as the code has it.  With [out] the events buffered when
    cancellation is raised and no sender left, the blocking printer loop
    may still print a prefix of them before its [select] takes the
    cancellation; the non-blocking drain pass prints exactly the events
    that remain, in order, and returns with the channel empty without
    waiting for a further event.  Together exactly the buffered events are
    printed, once each, and the epilogue comes after the last of them. *)
Theorem drain_completeness {F : Type} `{Format.EventFormatter F}
    (out : list Format.Event) (sched : list bool) (c : Main.Console F) :
  ∃ k, k ≤ length out
    ∧ Main.printEvents out true sched c
      = (Some (drop k out), Main.printAll c (take k out))
    ∧ Main.flushEvents (drop k out) (Main.printAll c (take k out))
      = ([], Main.printAll c out)
    ∧ length (Main.stdout (Main.printAll (Main.printAll c (take k out)) (drop k out)))
      = length (Main.stdout (Main.printAll c (take k out))) + (length out - k)
    ∧ length (Main.stdout (Main.printAll c out)) = length (Main.stdout c) + length out
    ∧ Main.mainOutput out true sched c
      = (let c1 := {| Main.stdout := Main.stdout c ++ [Format.Preamble (Main.formatter c)];
                      Main.formatter := Main.formatter c |} in
         let c2 := Main.printAll c1 out in
         (Some [], {| Main.stdout := Main.stdout c2 ++ [Format.Epilogue (Main.formatter c2)];
                      Main.formatter := Main.formatter c2 |})).
Proof.
  destruct (printEvents_cancelled out sched c) as (k & Hk & Hrun).
  exists k. split; [exact Hk|]. split; [exact Hrun|].
  split.
  { rewrite flushEvents_printAll, <- printAll_app, take_drop. reflexivity. }
  split.
  { rewrite printAll_length, length_drop. reflexivity. }
  split; [apply printAll_length|].
  apply mainOutput_cancelled.
Qed.

(** C6 as the specification states it fails when the scheduler lets the
    printer loop receive once more after cancellation: of one buffered
    event, the loop prints it and the drain pass finds the channel empty
    and prints nothing. *)
Lemma drain_pass_may_print_fewer :
  let c0 := Fixtures.freshConsole Format.mkDefaultFormatter in
  let r := @Main.printEvents _ Fixtures.plainDefault [Fixtures.changeEvent] true [true] c0 in
  let d := @Main.flushEvents _ Fixtures.plainDefault [] (snd r) in
  fst r = Some []
  ∧ length (Main.stdout (snd r)) = 1
  ∧ d = ([], snd r)
  ∧ length (Main.stdout (snd d)) - length (Main.stdout (snd r)) = 0.
Proof. vm_compute. repeat split. Qed.

(** ** Event processing *)

Section PipelineFacts.
Import K8s Format Main.
Context `{Strings} `{DiffEngine}.
Variable namespaceFilter : string → bool.
Variable colorize : bool.

Lemma diffAndRender_cache now key old new w :
  cache (snd (diffAndRender colorize now key old new w)) = cache w.
Proof.
  unfold diffAndRender.
  destruct (Modified _); simpl; [|reflexivity].
  destruct (AsciiFormat _ _ _); reflexivity.
Qed.

Lemma diffAndRender_unmodified now key old new w :
  Modified (CompareObjects (Object old) (Object new)) = false →
  diffAndRender colorize now key old new w = (None, w).
Proof. intros Hm. unfold diffAndRender. rewrite Hm. reflexivity. Qed.

Lemma diffAndRender_error now key old new w err :
  Modified (CompareObjects (Object old) (Object new)) = true →
  AsciiFormat (Object old) colorize (CompareObjects (Object old) (Object new)) = inr err →
  diffAndRender colorize now key old new w
  = (None, {| cache := cache w; trace := trace w ++ [ELog (LogFormatError err)] |}).
Proof. intros Hm Hf. unfold diffAndRender. rewrite Hm, Hf. reflexivity. Qed.

Lemma processEvent_unknown now event w :
  Type_ event ∉ [watch.Added; watch.Modified; watch.Deleted; watch.Bookmark] →
  processEvent namespaceFilter colorize now event w = (None, w).
Proof.
  intros Hty. unfold processEvent.
  rewrite bool_decide_eq_false_2 by exact Hty. reflexivity.
Qed.

Lemma processEvent_filtered now event w :
  namespaceFilter (GetNamespace (Object_ event)) = false →
  processEvent namespaceFilter colorize now event w = (None, w).
Proof.
  intros Hns. unfold processEvent, DeepCopy.
  destruct (bool_decide _); [|reflexivity]. rewrite Hns. reflexivity.
Qed.

Lemma processEvent_delete now object w :
  namespaceFilter (GetNamespace object) = true →
  processEvent namespaceFilter colorize now
    {| Type_ := watch.Deleted; Object_ := object |} w
  = diffAndRender colorize now (getKey object) object emptyUnstructured
      (withCache w (delete (getKey object) (cache w))).
Proof.
  intros Hns. unfold processEvent, DeepCopy. cbn [Type_ Object_].
  rewrite Hns. reflexivity.
Qed.

Lemma processEvent_store now ty object w :
  ty ∈ [watch.Added; watch.Modified; watch.Bookmark] →
  namespaceFilter (GetNamespace object) = true →
  processEvent namespaceFilter colorize now {| Type_ := ty; Object_ := object |} w
  = diffAndRender colorize now (getKey object)
      (default emptyUnstructured (cache w !! getKey object)) object
      (withCache w (<[getKey object := object]> (cache w))).
Proof.
  intros Hty Hns. unfold processEvent, DeepCopy. cbn [Type_ Object_].
  rewrite Hns.
  repeat (apply elem_of_cons in Hty as [->|Hty]; [reflexivity|]).
  inversion Hty.
Qed.

End PipelineFacts.

(** C1, as the code has it.  For a delete event whose object passes the
    namespace filter, the diff is computed with old = the object carried
    by the event itself (what the cache holds under the key is not
    consulted) and new = EmptyState, and the key is removed from the
    cache. *)
Theorem processEvent_delete_diff `{K8s.Strings} `{K8s.DiffEngine}
    (namespaceFilter : string → bool) (colorize : bool)
    (now : Z) (object : K8s.Unstructured) (w : Main.Loop) :
  namespaceFilter (K8s.GetNamespace object) = true →
  Main.processEvent namespaceFilter colorize now
    {| K8s.Type_ := K8s.watch.Deleted; K8s.Object_ := object |} w
  = Main.diffAndRender colorize now (Main.getKey object) object Main.emptyUnstructured
      (Main.withCache w (delete (Main.getKey object) (Main.cache w)))
  ∧ Main.cache (snd (Main.processEvent namespaceFilter colorize now
                       {| K8s.Type_ := K8s.watch.Deleted; K8s.Object_ := object |} w))
    = delete (Main.getKey object) (Main.cache w).
Proof.
  intros Hns. rewrite processEvent_delete by exact Hns.
  split; [reflexivity|]. rewrite diffAndRender_cache. reflexivity.
Qed.

Lemma processEvent_delete_diff_witness :
  Main.cache (snd (@Main.processEvent Fixtures.asciiStrings (Fixtures.structuralEngine Fixtures.renderOk)
                     Fixtures.anyNamespace true 7
                     {| K8s.Type_ := K8s.watch.Deleted; K8s.Object_ := Fixtures.widget 1 |}
                     Fixtures.emptyLoop))
  = delete (@Main.getKey Fixtures.asciiStrings (Fixtures.widget 1)) (Main.cache Fixtures.emptyLoop).
Proof.
  apply (@processEvent_delete_diff Fixtures.asciiStrings (Fixtures.structuralEngine Fixtures.renderOk)
           Fixtures.anyNamespace true 7 (Fixtures.widget 1) Fixtures.emptyLoop).
  reflexivity.
Defined.

(** C1 as the specification states it fails on a delete event for a key
    the cache does not hold: computed against the cached state (absent,
    hence EmptyState) the diff of EmptyState with EmptyState reports no
    modification and nothing is emitted, whereas the code diffs the
    event's object against EmptyState and emits a ChangeEvent. *)
Lemma delete_diffs_event_object_not_cache :
  let engine := Fixtures.structuralEngine Fixtures.renderOk in
  @Main.processDelete_spec Fixtures.asciiStrings engine true 7 (Fixtures.widget 1) Fixtures.emptyLoop
  = (None, Fixtures.emptyLoop)
  ∧ @Main.processEvent Fixtures.asciiStrings engine Fixtures.anyNamespace true 7
      {| K8s.Type_ := K8s.watch.Deleted; K8s.Object_ := Fixtures.widget 1 |}
      Fixtures.emptyLoop
    = (Some {| Format.Timestamp := 7; Format.Name := "a/x widget";
               Format.Data := "changed" |},
       Fixtures.emptyLoop).
Proof. split; vm_compute; reflexivity. Qed.

(** C3, as the code has it.  An event whose type is none of add, modify,
    delete and bookmark produces no ChangeEvent and leaves the cache and
    the log as they are.  A bookmark event is not ignored: it is
    processed exactly as a modify event carrying the same object.  When
    the namespace filter rejects the object's namespace nothing happens;
    when it accepts it, the object is written to the cache under its key,
    whatever the diff gives, and a ChangeEvent with the processing time,
    the key and the rendered diff is produced when the diff against the
    state the cache held (EmptyState when it held none) reports a
    modification and the rendering succeeds, and none otherwise. *)
Theorem processEvent_ignores_unknown_types `{K8s.Strings} `{K8s.DiffEngine}
    (namespaceFilter : string → bool) (colorize : bool)
    (now : Z) (event : K8s.WatchEvent) (w : Main.Loop) :
  let run := Main.processEvent namespaceFilter colorize now in
  let object := K8s.Object_ event in
  let key := Main.getKey object in
  let old := default Main.emptyUnstructured (Main.cache w !! key) in
  let diff := K8s.CompareObjects (K8s.Object old) (K8s.Object object) in
  (K8s.Type_ event ∉ [K8s.watch.Added; K8s.watch.Modified; K8s.watch.Deleted;
                      K8s.watch.Bookmark] →
   run event w = (None, w))
  ∧ (K8s.Type_ event = K8s.watch.Bookmark →
     run event w = run {| K8s.Type_ := K8s.watch.Modified; K8s.Object_ := object |} w
     ∧ (namespaceFilter (K8s.GetNamespace object) = false → run event w = (None, w))
     ∧ (namespaceFilter (K8s.GetNamespace object) = true →
        Main.cache (snd (run event w)) = <[key := object]> (Main.cache w)
        ∧ (K8s.Modified diff = false →
           run event w = (None, Main.withCache w (<[key := object]> (Main.cache w))))
        ∧ (∀ text, K8s.Modified diff = true →
             K8s.AsciiFormat (K8s.Object old) colorize diff = inl text →
             run event w
             = (Some {| Format.Timestamp := now; Format.Name := key; Format.Data := text |},
                Main.withCache w (<[key := object]> (Main.cache w))))
        ∧ (∀ err, K8s.Modified diff = true →
             K8s.AsciiFormat (K8s.Object old) colorize diff = inr err →
             fst (run event w) = None))).
Proof.
  intros run object key old diff. subst run object key old diff.
  split; [apply processEvent_unknown|].
  destruct event as [ty object]. cbn [K8s.Type_ K8s.Object_]. intros ->.
  split; [reflexivity|].
  split; [intros Hns; apply processEvent_filtered; exact Hns|].
  intros Hns.
  assert (K8s.watch.Bookmark
          ∈ [K8s.watch.Added; K8s.watch.Modified; K8s.watch.Bookmark]) as Hty.
  { right. right. left. }
  rewrite (processEvent_store namespaceFilter colorize now _ object w Hty Hns).
  split; [rewrite diffAndRender_cache; reflexivity|].
  split; [intros Hm; apply diffAndRender_unmodified; exact Hm|].
  split.
  - intros text Hm Hf. unfold Main.diffAndRender. rewrite Hm, Hf. reflexivity.
  - intros err Hm Hf. rewrite (diffAndRender_error colorize now _ _ _ _ err Hm Hf).
    reflexivity.
Qed.

Lemma processEvent_ignores_unknown_types_witness :
  let engine := Fixtures.structuralEngine Fixtures.renderOk in
  let run := @Main.processEvent Fixtures.asciiStrings engine Fixtures.anyNamespace true 7 in
  let bookmark := {| K8s.Type_ := K8s.watch.Bookmark;
                     K8s.Object_ := Fixtures.bookmarkObject "7" |} in
  let key := @Main.getKey Fixtures.asciiStrings (Fixtures.bookmarkObject "7") in
  run {| K8s.Type_ := K8s.watch.Error; K8s.Object_ := Fixtures.widget 1 |}
    Fixtures.emptyLoop
  = (None, Fixtures.emptyLoop)
  ∧ run bookmark Fixtures.emptyLoop
    = run {| K8s.Type_ := K8s.watch.Modified; K8s.Object_ := Fixtures.bookmarkObject "7" |}
        Fixtures.emptyLoop
  ∧ Main.cache (snd (run bookmark Fixtures.emptyLoop))
    = <[key := Fixtures.bookmarkObject "7"]> (Main.cache Fixtures.emptyLoop)
  ∧ run bookmark Fixtures.emptyLoop
    = (Some {| Format.Timestamp := 7; Format.Name := key; Format.Data := "changed" |},
       Main.withCache Fixtures.emptyLoop
         (<[key := Fixtures.bookmarkObject "7"]> (Main.cache Fixtures.emptyLoop))).
Proof.
  intros engine run bookmark key.
  pose proof (@processEvent_ignores_unknown_types Fixtures.asciiStrings engine
                Fixtures.anyNamespace true 7
                {| K8s.Type_ := K8s.watch.Error; K8s.Object_ := Fixtures.widget 1 |}
                Fixtures.emptyLoop) as [Hunknown _].
  pose proof (@processEvent_ignores_unknown_types Fixtures.asciiStrings engine
                Fixtures.anyNamespace true 7 bookmark Fixtures.emptyLoop) as [_ Hbookmark].
  destruct (Hbookmark eq_refl) as (Hmodify & _ & Hstore).
  destruct (Hstore eq_refl) as (Hcache & _ & Hevent & _).
  split.
  - apply Hunknown. vm_compute. intros Hin.
    repeat (apply elem_of_cons in Hin as [Hin|Hin]; [discriminate|]).
    inversion Hin.
  - split; [exact Hmodify|]. split; [exact Hcache|].
    apply (Hevent "changed"); reflexivity.
Defined.

(** C3 as the specification states it fails on a bookmark event: the
    event's object is written into the cache, which did not hold its key,
    and a ChangeEvent is produced. *)
Lemma bookmark_is_processed :
  let engine := Fixtures.structuralEngine Fixtures.renderOk in
  let r := @Main.processEvent Fixtures.asciiStrings engine Fixtures.anyNamespace true 7
             {| K8s.Type_ := K8s.watch.Bookmark;
                K8s.Object_ := Fixtures.bookmarkObject "7" |}
             Fixtures.emptyLoop in
  fst r = Some {| Format.Timestamp := 7; Format.Name := " v1/widget";
                  Format.Data := "changed" |}
  ∧ Main.cache Fixtures.emptyLoop !! " v1/widget" = None
  ∧ Main.cache (snd r) !! " v1/widget" = Some (Fixtures.bookmarkObject "7").
Proof. vm_compute. repeat split. Qed.

(** The structural engine finds no modification between a document and
    itself. *)
Lemma value_eqb_refl : ∀ v, Fixtures.value_eqb v v = true.
Proof.
  fix IH 1. intros [| b | n | s | l | m].
  - reflexivity.
  - destruct b; reflexivity.
  - apply Z.eqb_refl.
  - apply String.eqb_refl.
  - cbn [Fixtures.value_eqb]. induction l as [|x l IHl]; [reflexivity|].
    rewrite (IH x). exact IHl.
  - cbn [Fixtures.value_eqb]. induction m as [|[k x] m IHm]; [reflexivity|].
    rewrite String.eqb_refl, (IH x). exact IHm.
Qed.

Lemma structuralEngine_refl render o :
  @K8s.Modified (Fixtures.structuralEngine render)
    (@K8s.CompareObjects (Fixtures.structuralEngine render) o o) = false.
Proof.
  change (negb (Fixtures.object_eqb o o) = false).
  unfold Fixtures.object_eqb. rewrite value_eqb_refl. reflexivity.
Qed.

(** C5: when the diff engine reports no modification between a document
    and itself, processing the same add or modify event a second time
    right after the first produces no ChangeEvent and changes nothing, so
    that the two runs produce at most one ChangeEvent. *)
Theorem processEvent_twice_suppressed `{K8s.Strings} `{K8s.DiffEngine}
    (namespaceFilter : string → bool) (colorize : bool)
    (now1 now2 : Z) (ty : K8s.EventType) (object : K8s.Unstructured) (w : Main.Loop) :
  (∀ o, K8s.Modified (K8s.CompareObjects o o) = false) →
  ty ∈ [K8s.watch.Added; K8s.watch.Modified] →
  let event := {| K8s.Type_ := ty; K8s.Object_ := object |} in
  let r1 := Main.processEvent namespaceFilter colorize now1 event w in
  let r2 := Main.processEvent namespaceFilter colorize now2 event (snd r1) in
  r2 = (None, snd r1)
  ∧ length (option_list (fst r1) ++ option_list (fst r2)) ≤ 1.
Proof.
  intros Hrefl Hty event r1 r2.
  assert (r2 = (None, snd r1)) as Hr2.
  { subst r2. destruct (namespaceFilter (K8s.GetNamespace object)) eqn:Hns.
    - assert (ty ∈ [K8s.watch.Added; K8s.watch.Modified; K8s.watch.Bookmark]) as Hty'.
      { apply elem_of_cons in Hty as [->|Hty]; [left|].
        apply list_elem_of_singleton in Hty as ->. right; left. }
      subst event. rewrite (processEvent_store _ _ now2 ty object (snd r1) Hty' Hns).
      assert (Main.cache (snd r1) !! Main.getKey object = Some object) as Hc.
      { subst r1. rewrite (processEvent_store _ _ now1 ty object w Hty' Hns).
        rewrite diffAndRender_cache. apply lookup_insert_eq. }
      rewrite Hc. cbn [default].
      assert (Main.withCache (snd r1) (<[Main.getKey object := object]> (Main.cache (snd r1)))
              = snd r1) as ->.
      { unfold Main.withCache. rewrite insert_id by exact Hc. destruct (snd r1); reflexivity. }
      apply diffAndRender_unmodified, Hrefl.
    - apply processEvent_filtered. exact Hns. }
  split; [exact Hr2|].
  rewrite Hr2. cbn [fst option_list]. rewrite app_nil_r.
  destruct (fst r1); simpl; lia.
Qed.

Lemma processEvent_twice_suppressed_witness :
  let engine := Fixtures.structuralEngine Fixtures.renderOk in
  let event := {| K8s.Type_ := K8s.watch.Added; K8s.Object_ := Fixtures.widget 1 |} in
  let r1 := @Main.processEvent Fixtures.asciiStrings engine Fixtures.anyNamespace true 7 event Fixtures.emptyLoop in
  @Main.processEvent Fixtures.asciiStrings engine Fixtures.anyNamespace true 8 event (snd r1) = (None, snd r1).
Proof.
  apply (@processEvent_twice_suppressed Fixtures.asciiStrings (Fixtures.structuralEngine Fixtures.renderOk)
           Fixtures.anyNamespace true 7 8 K8s.watch.Added (Fixtures.widget 1)
           Fixtures.emptyLoop).
  - intros o. apply structuralEngine_refl.
  - left.
Defined.

(** C9: for an add or modify event whose object passes the namespace
    filter, the cache holds the incoming state under the object's key once
    the event is processed, whatever the diff engine answers; this is so
    in particular when no ChangeEvent is emitted because the diff reports
    no modification, and when none is emitted because rendering the diff
    fails (the failure is logged). *)
Theorem processEvent_caches_before_diff `{K8s.Strings} `{K8s.DiffEngine}
    (namespaceFilter : string → bool) (colorize : bool)
    (now : Z) (ty : K8s.EventType) (object : K8s.Unstructured) (w : Main.Loop) :
  ty ∈ [K8s.watch.Added; K8s.watch.Modified] →
  namespaceFilter (K8s.GetNamespace object) = true →
  let key := Main.getKey object in
  let old := default Main.emptyUnstructured (Main.cache w !! key) in
  let diff := K8s.CompareObjects (K8s.Object old) (K8s.Object object) in
  let r := Main.processEvent namespaceFilter colorize now
             {| K8s.Type_ := ty; K8s.Object_ := object |} w in
  Main.cache (snd r) = <[key := object]> (Main.cache w)
  ∧ Main.cache (snd r) !! key = Some object
  ∧ (K8s.Modified diff = false →
     r = (None, Main.withCache w (<[key := object]> (Main.cache w))))
  ∧ (∀ err, K8s.Modified diff = true →
       K8s.AsciiFormat (K8s.Object old) colorize diff = inr err →
       r = (None, {| Main.cache := <[key := object]> (Main.cache w);
                     Main.trace := Main.trace w
                                   ++ [Main.ELog (Main.LogFormatError err)] |})).
Proof.
  intros Hty Hns key old diff r.
  assert (ty ∈ [K8s.watch.Added; K8s.watch.Modified; K8s.watch.Bookmark]) as Hty'.
  { apply elem_of_cons in Hty as [->|Hty]; [left|].
    apply list_elem_of_singleton in Hty as ->. right; left. }
  assert (Main.cache (snd r) = <[key := object]> (Main.cache w)) as Hc.
  { subst r. rewrite (processEvent_store _ _ now ty object w Hty' Hns).
    rewrite diffAndRender_cache. reflexivity. }
  split; [exact Hc|]. split; [rewrite Hc; apply lookup_insert_eq|]. split.
  - intros Hm. subst r. rewrite (processEvent_store _ _ now ty object w Hty' Hns).
    apply diffAndRender_unmodified. exact Hm.
  - intros err Hm Hf. subst r.
    rewrite (processEvent_store _ _ now ty object w Hty' Hns).
    rewrite (diffAndRender_error colorize now key old object _ err Hm Hf).
    reflexivity.
Qed.

Lemma processEvent_caches_before_diff_witness :
  let engine := Fixtures.structuralEngine Fixtures.renderFails in
  let r := @Main.processEvent Fixtures.asciiStrings engine Fixtures.anyNamespace true 7
             {| K8s.Type_ := K8s.watch.Added; K8s.Object_ := Fixtures.widget 1 |}
             Fixtures.emptyLoop in
  r = (None, {| Main.cache := <[@Main.getKey Fixtures.asciiStrings (Fixtures.widget 1) := Fixtures.widget 1]>
                                (Main.cache Fixtures.emptyLoop);
                Main.trace := Main.trace Fixtures.emptyLoop
                              ++ [Main.ELog (Main.LogFormatError "cannot render")] |}).
Proof.
  apply (proj2 (proj2 (proj2
    (@processEvent_caches_before_diff Fixtures.asciiStrings (Fixtures.structuralEngine Fixtures.renderFails)
       Fixtures.anyNamespace true 7 K8s.watch.Added (Fixtures.widget 1)
       Fixtures.emptyLoop ltac:(left) ltac:(reflexivity))))).
  - reflexivity.
  - reflexivity.
Defined.

(** ** The watch loop *)

Section WatchFacts.
Import K8s Format Main.
Context `{Strings} `{DiffEngine}.
Variable namespaceFilter : string → bool.
Variable colorize : bool.

Lemma addTrace_nil w : addTrace w [] = w.
Proof. unfold addTrace. rewrite app_nil_r. destruct w; reflexivity. Qed.

Lemma addTrace_app w es1 es2 :
  addTrace (addTrace w es1) es2 = addTrace w (es1 ++ es2).
Proof. unfold addTrace; simpl. rewrite app_assoc. reflexivity. Qed.

Lemma logged_addTrace w es :
  logged (addTrace w es)
  = logged w ++ omap (λ e, match e with ELog l => Some l | _ => None end) es.
Proof. unfold logged, addTrace; simpl. apply omap_app. Qed.

Lemma logged_retries w interval gvr n :
  logged (addTrace w (retries interval gvr n)) = logged w.
Proof.
  rewrite logged_addTrace.
  induction n as [|n IH]; simpl; [apply app_nil_r | exact IH].
Qed.

Lemma emit_addTrace e w : emit e w = (tt, addTrace w [e]).
Proof. reflexivity. Qed.

Lemma poll_not_found interval gvr err rest w :
  IsNotFound err = true →
  PollImmediateUntil interval gvr (WatchFails err false :: rest) w
  = PollImmediateUntil interval gvr rest (addTrace w [EWatch gvr; ESleep interval]).
Proof.
  intros Hnf. cbn [PollImmediateUntil]. unfold condition, mbind, State_bind.
  rewrite emit_addTrace, Hnf. cbn [mret State_ret cancelledAfter].
  rewrite emit_addTrace, addTrace_app. reflexivity.
Qed.

Lemma poll_retries interval gvr err n rest w :
  IsNotFound err = true →
  PollImmediateUntil interval gvr (replicate n (WatchFails err false) ++ rest) w
  = PollImmediateUntil interval gvr rest (addTrace w (retries interval gvr n)).
Proof.
  intros Hnf. revert w. induction n as [|n IH]; intros w.
  - simpl. rewrite addTrace_nil. reflexivity.
  - cbn [replicate app]. rewrite poll_not_found by exact Hnf.
    rewrite IH, addTrace_app. reflexivity.
Qed.

Lemma poll_fails interval gvr err cancelled rest w :
  IsNotFound err = false →
  PollImmediateUntil interval gvr (WatchFails err cancelled :: rest) w
  = (Some (None, Some (ConditionError err)), addTrace w [EWatch gvr]).
Proof.
  intros Hnf. cbn [PollImmediateUntil]. unfold condition, mbind, State_bind.
  rewrite emit_addTrace, Hnf. reflexivity.
Qed.

Lemma watchResource_round gvr attempts rounds w :
  watchResource namespaceFilter colorize gvr (attempts :: rounds) w
  = (let '(r, w1) := PollImmediateUntil Second gvr attempts w in
     match r with
     | None => (Connecting, w1)
     | Some (_, Some err) =>
         (Stopped,
          if negb (isWaitTimeout err) && negb (pollErrorIsMethodNotSupported err)
          then addTrace w1 [ELog (LogWatchError gvr err)] else w1)
     | Some (None, None) => (Stopped, w1)
     | Some (Some in_, None) =>
         let '(ok, w2) := processEvents namespaceFilter colorize in_ w1 in
         match ok with
         | None => (Streaming, w2)
         | Some ok =>
             if negb ok then (Stopped, addTrace w2 [EStop])
             else watchResource namespaceFilter colorize gvr rounds (addTrace w2 [EStop])
         end
     end).
Proof.
  cbn [watchResource]. unfold mbind, State_bind.
  destruct (PollImmediateUntil Second gvr attempts w) as [[[[in_|] [err|]]|] w1];
    try reflexivity.
  - destruct (negb (isWaitTimeout err) && negb (pollErrorIsMethodNotSupported err));
      reflexivity.
  - destruct (processEvents namespaceFilter colorize in_ w1) as [[[|]|] w2]; reflexivity.
  - destruct (negb (isWaitTimeout err) && negb (pollErrorIsMethodNotSupported err));
      reflexivity.
Qed.

Lemma method_not_supported_is_found err :
  IsMethodNotSupported err = true → IsNotFound err = false.
Proof.
  unfold IsMethodNotSupported, IsNotFound.
  destruct (ReasonForError err); congruence.
Qed.

End WatchFacts.

(** C4: while the attempts to open the watch fail with a not-found error
    and cancellation is not raised, the loop tries again after one
    interval of [time.Second], however many times that is, and logs
    nothing; an attempt that fails because the method is not supported
    returns from [watchResource] with nothing logged; an attempt that
    fails in any other way logs the error once and returns from
    [watchResource].  The return is the end of this loop only: nothing
    else is done on the way out. *)
Theorem watchResource_open_failures `{K8s.Strings} `{K8s.DiffEngine}
    (namespaceFilter : string → bool) (colorize : bool)
    (gvr : K8s.GroupVersionResource) (notFound err : K8s.APIError)
    (cancelled : bool) (n : nat)
    (attempts : list Main.Attempt) (rounds : list (list Main.Attempt)) (w : Main.Loop) :
  let run := Main.watchResource namespaceFilter colorize gvr in
  let retried := Main.addTrace w (Main.retries K8s.Second gvr n) in
  (K8s.IsNotFound notFound = true →
     run ((replicate n (Main.WatchFails notFound false) ++ attempts) :: rounds) w
     = run (attempts :: rounds) retried
     ∧ run [replicate n (Main.WatchFails notFound false)] w = (Main.Connecting, retried)
     ∧ Main.logged retried = Main.logged w)
  ∧ (K8s.IsMethodNotSupported err = true →
     run ((Main.WatchFails err cancelled :: attempts) :: rounds) w
     = (Main.Stopped, Main.addTrace w [Main.EWatch gvr])
     ∧ Main.logged (Main.addTrace w [Main.EWatch gvr]) = Main.logged w)
  ∧ (K8s.IsNotFound err = false → K8s.IsMethodNotSupported err = false →
     run ((Main.WatchFails err cancelled :: attempts) :: rounds) w
     = (Main.Stopped,
        Main.addTrace w [Main.EWatch gvr;
                         Main.ELog (Main.LogWatchError gvr (K8s.ConditionError err))])
     ∧ Main.logged (Main.addTrace w [Main.EWatch gvr;
                      Main.ELog (Main.LogWatchError gvr (K8s.ConditionError err))])
       = Main.logged w ++ [Main.LogWatchError gvr (K8s.ConditionError err)]).
Proof.
  intros run retried. subst run. split; [|split].
  - intros Hnf. split; [|split].
    + rewrite !watchResource_round, poll_retries by exact Hnf. reflexivity.
    + rewrite watchResource_round.
      rewrite <- (app_nil_r (replicate n _)), poll_retries by exact Hnf.
      reflexivity.
    + apply logged_retries.
  - intros Hmns. split.
    + rewrite watchResource_round.
      rewrite poll_fails by (apply method_not_supported_is_found; exact Hmns).
      cbn [Main.isWaitTimeout Main.pollErrorIsMethodNotSupported]. rewrite Hmns.
      reflexivity.
    + rewrite logged_addTrace. apply app_nil_r.
  - intros Hnf Hmns. split.
    + rewrite watchResource_round, poll_fails by exact Hnf.
      cbn [Main.isWaitTimeout Main.pollErrorIsMethodNotSupported]. rewrite Hmns.
      cbn [negb andb]. rewrite addTrace_app. reflexivity.
    + rewrite logged_addTrace. reflexivity.
Qed.

Lemma watchResource_open_failures_witness :
  let engine := Fixtures.structuralEngine Fixtures.renderOk in
  let run := @Main.watchResource Fixtures.asciiStrings engine Fixtures.anyNamespace true Fixtures.widgets in
  let notFound := K8s.StatusError K8s.StatusReasonNotFound "not found" in
  let unsupported := K8s.StatusError K8s.StatusReasonMethodNotAllowed "not allowed" in
  let refused := K8s.PlainError "connection refused" in
  run [replicate 3 (Main.WatchFails notFound false)] Fixtures.emptyLoop
  = (Main.Connecting,
     Main.addTrace Fixtures.emptyLoop (Main.retries K8s.Second Fixtures.widgets 3))
  ∧ run [[Main.WatchFails unsupported false]] Fixtures.emptyLoop
    = (Main.Stopped, Main.addTrace Fixtures.emptyLoop [Main.EWatch Fixtures.widgets])
  ∧ run [[Main.WatchFails refused false]] Fixtures.emptyLoop
    = (Main.Stopped,
       Main.addTrace Fixtures.emptyLoop
         [Main.EWatch Fixtures.widgets;
          Main.ELog (Main.LogWatchError Fixtures.widgets (K8s.ConditionError refused))]).
Proof.
  intros engine run notFound unsupported refused.
  pose proof (@watchResource_open_failures Fixtures.asciiStrings engine Fixtures.anyNamespace true
                Fixtures.widgets notFound unsupported false 3 [] [] Fixtures.emptyLoop)
    as [Hretry [Hunsupported _]].
  pose proof (@watchResource_open_failures Fixtures.asciiStrings engine Fixtures.anyNamespace true
                Fixtures.widgets notFound refused false 3 [] [] Fixtures.emptyLoop)
    as [_ [_ Hother]].
  split; [exact (proj1 (proj2 (Hretry eq_refl)))|].
  split; [exact (proj1 (Hunsupported eq_refl))|].
  exact (proj1 (Hother eq_refl eq_refl)).
Defined.

(** ** Worked scenarios *)

(** A group-version filter that names [apps/v1] lets it pass; a
    group-version-resource filter that negates [apps/v1/deployments]
    rejects that resource and accepts its siblings. *)
Example filter_scenario :
  Filter.NewFilter ["apps/v1"; "!apps/v1/deployments"] "apps/v1" = true
  ∧ Filter.NewFilter ["!apps/v1/deployments"] "apps/v1/deployments" = false
  ∧ Filter.NewFilter ["!apps/v1/deployments"] "apps/v1/statefulsets" = true.
Proof. repeat split. Qed.

(** One listed widget with one replica; a modify event with two replicas
    yields one ChangeEvent under the key [a/x widget], and the same event
    sent again yields none. *)
Example widget_scenario :
  let engine := Fixtures.structuralEngine Fixtures.renderOk in
  let listed := Main.withCache Fixtures.emptyLoop
                  {[ @Main.getKey Fixtures.asciiStrings (Fixtures.widget 1) := Fixtures.widget 1 ]} in
  let update := {| K8s.Type_ := K8s.watch.Modified; K8s.Object_ := Fixtures.widget 2 |} in
  let r := @Main.processEvents Fixtures.asciiStrings engine Fixtures.anyNamespace true
             [Main.SelRecv 7 update; Main.SelRecv 8 update; Main.SelClosed] listed in
  fst r = Some true
  ∧ Main.sent (snd r)
    = [{| Format.Timestamp := 7; Format.Name := "a/x widget"; Format.Data := "changed" |}]
  ∧ Main.cache (snd r) !! "a/x widget" = Some (Fixtures.widget 2).
Proof. vm_compute. repeat split. Qed.

(* ================================================================== *)
(** * Further properties of the code *)
(* ================================================================== *)

(** ** The name filter *)

Lemma string_drop_length (n : nat) (s : string) :
  String.length (string_drop n s) = String.length s - n.
Proof.
  revert s. induction n as [|n IH]; intros [|c r]; simpl; try reflexivity.
  apply IH.
Qed.

(** X1: [countPrefix] never runs past the end of its argument; the bytes
    before the returned index are all the counted byte, and the byte at
    the index, if there is one, is a different one.  So the slice
    [name[count:]] of [NewFilter] is always in range. *)
Theorem countPrefix_in_range (name : string) (ch : ascii) :
  let i := Filter.countPrefix name ch in
  i ≤ String.length name
  ∧ name = string_rep i ch +:+ string_drop i name
  ∧ String.length (string_drop i name) = String.length name - i
  ∧ String.get i name ≠ Some ch.
Proof.
  cbv zeta. induction name as [|c r (IH1 & IH2 & IH3 & IH4)].
  - repeat split; try reflexivity. discriminate.
  - destruct (Ascii.eqb_spec c ch) as [->|Hne].
    + rewrite countPrefix_cons_eq. split; [simpl; lia|]. split; [|split].
      * change (String ch r = String ch (string_rep (Filter.countPrefix r ch) ch
                                 +:+ string_drop (Filter.countPrefix r ch) r)).
        f_equal. exact IH2.
      * apply string_drop_length.
      * exact IH4.
    + rewrite countPrefix_cons_ne by exact Hne.
      split; [simpl; lia|]. split; [reflexivity|]. split; [reflexivity|].
      simpl. congruence.
Qed.

Lemma matches_ext (s1 s2 : Filter.sets) (name : string) :
  Filter.include s1 = Filter.include s2 →
  Filter.exclude s1 = Filter.exclude s2 →
  Filter.matches s1 name = Filter.matches s2 name.
Proof. intros Hi He. unfold Filter.matches. rewrite Hi, He. reflexivity. Qed.

Lemma included_same_elements (l1 l2 : list string) (n : string) :
  (∀ p, p ∈ l1 ↔ p ∈ l2) → Filter.included l1 n → Filter.included l2 n.
Proof. intros Hl (p & k & Hp & Hs). exists p, k. split; [apply Hl|]; assumption. Qed.

Lemma excluded_same_elements (l1 l2 : list string) (n : string) :
  (∀ p, p ∈ l1 ↔ p ∈ l2) → Filter.excluded l1 n → Filter.excluded l2 n.
Proof. intros Hl (p & k & Hp & Hs). exists p, k. split; [apply Hl|]; assumption. Qed.

(** X2: the filter depends on which patterns are given, not on their
    order nor on how often each is repeated. *)
Theorem NewFilter_order_and_duplicates (l1 l2 : list string) (name : string) :
  (∀ p, p ∈ l1 ↔ p ∈ l2) →
  Filter.NewFilter l1 name = Filter.NewFilter l2 name.
Proof.
  intros Hl. unfold Filter.NewFilter. apply matches_ext.
  - apply set_eq. intros n. rewrite !buildSets_include.
    split; apply included_same_elements; [|symmetry]; apply Hl.
  - apply set_eq. intros n. rewrite !buildSets_exclude.
    split; apply excluded_same_elements; [|symmetry]; apply Hl.
Qed.

Lemma NewFilter_order_and_duplicates_witness :
  Filter.NewFilter ["default"; "!kube-system"; "default"] "default"
  = Filter.NewFilter ["!kube-system"; "default"] "default".
Proof.
  apply NewFilter_order_and_duplicates. intros p.
  rewrite !elem_of_cons, !elem_of_nil. tauto.
Defined.

Lemma insertName_two_markers (s : Filter.sets) (p : string) :
  Filter.insertName s ("!!" +:+ p) = Filter.insertName s p.
Proof.
  unfold Filter.insertName.
  change ("!!" +:+ p) with (String "!" (String "!" p)).
  rewrite !countPrefix_cons_eq.
  change (string_drop (S (S (Filter.countPrefix p "!"))) (String "!" (String "!" p)))
    with (string_drop (Filter.countPrefix p "!") p).
  replace (S (S (Filter.countPrefix p "!")) mod 2) with (Filter.countPrefix p "!" mod 2).
  - reflexivity.
  - change (S (S (Filter.countPrefix p "!"))) with (2 + Filter.countPrefix p "!").
    rewrite <- (Nat.Div0.add_mod_idemp_l 2). reflexivity.
Qed.

(** X3: two more negation markers in front of a pattern, wherever the
    pattern stands in the list, leave the filter as it is. *)
Theorem NewFilter_double_negation (before after : list string) (p name : string) :
  Filter.NewFilter (before ++ ("!!" +:+ p) :: after) name
  = Filter.NewFilter (before ++ p :: after) name.
Proof.
  unfold Filter.NewFilter, Filter.buildSets.
  rewrite !fold_left_app. cbn [fold_left]. rewrite insertName_two_markers.
  reflexivity.
Qed.

Lemma splits_not_marker (p : string) (k : nat) (rest : string) :
  ¬ Filter.splits p k (String "!" rest).
Proof. intros [_ Hn]. exact (Hn rest eq_refl). Qed.

(** X4: no pattern can name a name that itself starts with a negation
    marker, since the markers are stripped from every pattern: such a
    name passes the filter exactly when the include set is empty. *)
Theorem NewFilter_marker_names (names : list string) (rest : string) :
  Filter.NewFilter names (String "!" rest) = true
  ↔ Filter.include (Filter.buildSets names) = ∅.
Proof.
  unfold Filter.NewFilter. rewrite matches_spec.
  rewrite buildSets_include, buildSets_exclude.
  split.
  - intros [[Hempty|(p & k & _ & Hs & _)] _].
    + apply leibniz_equiv, elem_of_equiv_empty. exact Hempty.
    + destruct (splits_not_marker _ _ _ Hs).
  - intros Hempty. split.
    + left. intros n. rewrite Hempty. apply not_elem_of_empty.
    + intros (p & k & _ & Hs & _). destruct (splits_not_marker _ _ _ Hs).
Qed.

(** ** The cache and the event loop *)

Section LoopFacts.
Import K8s Format Main.
Context `{Strings} `{DiffEngine}.
Variable namespaceFilter : string → bool.
Variable colorize : bool.

(** Either [processEvent] drops the event, or it diffs after writing the
    event's object into the cache or deleting its key. *)
Lemma processEvent_shape now event w :
  processEvent namespaceFilter colorize now event w = (None, w)
  ∨ ∃ old new c,
      processEvent namespaceFilter colorize now event w
      = diffAndRender colorize now (getKey (Object_ event)) old new (withCache w c)
      ∧ (c = <[getKey (Object_ event) := Object_ event]> (cache w)
         ∨ c = delete (getKey (Object_ event)) (cache w)).
Proof.
  unfold processEvent, DeepCopy.
  destruct (bool_decide (Type_ event ∈ _)); [|left; reflexivity].
  destruct (namespaceFilter _); [|left; reflexivity].
  right. cbn [negb]. unfold mbind, State_bind, get.
  destruct (bool_decide (Type_ event = watch.Deleted)).
  - eexists _, _, _. split; [reflexivity|]. right. reflexivity.
  - eexists _, _, _. split; [reflexivity|]. left. reflexivity.
Qed.

Lemma diffAndRender_logged now key old new w :
  ∃ errs, logged (snd (diffAndRender colorize now key old new w))
          = logged w ++ map LogFormatError errs.
Proof.
  unfold diffAndRender. destruct (Modified _); cbn [negb].
  - destruct (AsciiFormat _ _ _) as [text|err].
    + exists []. simpl. rewrite app_nil_r. reflexivity.
    + exists [err]. unfold mbind, State_bind. rewrite emit_addTrace.
      cbn [mret State_ret snd]. apply logged_addTrace.
  - exists []. simpl. rewrite app_nil_r. reflexivity.
Qed.

Lemma diffAndRender_sent now key old new w :
  sent (snd (diffAndRender colorize now key old new w)) = sent w.
Proof.
  unfold diffAndRender. destruct (Modified _); cbn [negb]; [|reflexivity].
  destruct (AsciiFormat _ _ _) as [text|err]; [reflexivity|].
  unfold mbind, State_bind. rewrite emit_addTrace. cbn [mret State_ret snd].
  unfold sent, addTrace; simpl. rewrite omap_app. simpl. apply app_nil_r.
Qed.

Lemma diffAndRender_event now key old new w e :
  fst (diffAndRender colorize now key old new w) = Some e →
  Name e = key ∧ Timestamp e = now.
Proof.
  unfold diffAndRender. destruct (Modified _); cbn [negb]; [|discriminate].
  destruct (AsciiFormat _ _ _) as [text|err]; [|discriminate].
  intros [= <-]. split; reflexivity.
Qed.

Lemma keyed_insert c o : keyed c → keyed (<[getKey o := o]> c).
Proof.
  intros Hc k o'. rewrite lookup_insert. case_decide as Hk.
  - intros [= <-]. exact Hk.
  - apply Hc.
Qed.

Lemma keyed_delete c k : keyed c → keyed (delete k c).
Proof.
  intros Hc k' o'. rewrite lookup_delete. case_decide; [discriminate | apply Hc].
Qed.

Lemma keyed_empty : keyed ∅.
Proof. intros k o. rewrite lookup_empty. discriminate. Qed.

Lemma processEvent_keyed now event w :
  keyed (cache w) → keyed (cache (snd (processEvent namespaceFilter colorize now event w))).
Proof.
  intros Hk. destruct (processEvent_shape now event w) as [->|(old & new & c & -> & Hc)].
  - exact Hk.
  - rewrite diffAndRender_cache. cbn [withCache cache].
    destruct Hc as [-> | ->]; [apply keyed_insert | apply keyed_delete]; exact Hk.
Qed.

Lemma processEvent_logged now event w :
  ∃ errs, logged (snd (processEvent namespaceFilter colorize now event w))
          = logged w ++ map LogFormatError errs.
Proof.
  destruct (processEvent_shape now event w) as [->|(old & new & c & -> & _)].
  - exists []. simpl. rewrite app_nil_r. reflexivity.
  - destruct (diffAndRender_logged now (getKey (Object_ event)) old new (withCache w c))
      as [errs Herrs].
    exists errs. exact Herrs.
Qed.

Lemma processEvent_sent now event w :
  sent (snd (processEvent namespaceFilter colorize now event w)) = sent w.
Proof.
  destruct (processEvent_shape now event w) as [->|(old & new & c & -> & _)].
  - reflexivity.
  - rewrite diffAndRender_sent. reflexivity.
Qed.

Lemma processEvent_event now event w e :
  fst (processEvent namespaceFilter colorize now event w) = Some e →
  Name e = getKey (Object_ event) ∧ Timestamp e = now.
Proof.
  destruct (processEvent_shape now event w) as [->|(old & new & c & -> & _)].
  - discriminate.
  - apply diffAndRender_event.
Qed.

(** One delivered event, as [processEvents] handles it. *)
Lemma processEvents_recv now event rest w :
  processEvents namespaceFilter colorize (SelRecv now event :: rest) w
  = (let '(e, w1) := processEvent namespaceFilter colorize now event w in
     processEvents namespaceFilter colorize rest
       (match e with Some e => addTrace w1 [ESend e] | None => w1 end)).
Proof.
  cbn [processEvents]. unfold mbind, State_bind.
  destruct (processEvent namespaceFilter colorize now event w) as [[e|] w1]; reflexivity.
Qed.

Lemma processEvents_app events rest w :
  processEvents namespaceFilter colorize (deliveries events ++ rest) w
  = processEvents namespaceFilter colorize rest
      (snd (processEvents namespaceFilter colorize (deliveries events) w))
  ∧ fst (processEvents namespaceFilter colorize (deliveries events) w) = None.
Proof.
  revert w. induction events as [|[now event] events IH]; intros w.
  - split; reflexivity.
  - cbn [deliveries map app fst snd]. rewrite !processEvents_recv.
    destruct (processEvent namespaceFilter colorize now event w) as [[e|] w1]; apply IH.
Qed.

Lemma processEvents_deliveries events w :
  processEvents namespaceFilter colorize (deliveries events) w
  = (None, fold_left (receive namespaceFilter colorize) events w).
Proof.
  revert w. induction events as [|[now event] events IH]; intros w; [reflexivity|].
  cbn [deliveries map fst snd fold_left]. rewrite processEvents_recv.
  unfold receive at 2. cbn [fst snd].
  destruct (processEvent namespaceFilter colorize now event w) as [[e|] w1]; apply IH.
Qed.

(** X5: [processEvents] takes the delivered events one at a time in the
    order of their arrival, runs [processEvent] on each against the state
    the earlier ones left and sends the event it returns, if any, before
    it takes the next; it does not return on its own; it returns [false]
    at the first round in which the select takes the cancellation and
    [true] at the first round in which it finds the watch channel closed,
    and what the environment holds after that round is never looked
    at. *)
Theorem processEvents_rounds
    (events : list (Z * WatchEvent)) (rest : list Select) (w : Loop) :
  let run := processEvents namespaceFilter colorize in
  let w1 := fold_left (receive namespaceFilter colorize) events w in
  run (deliveries events) w = (None, w1)
  ∧ run (deliveries events ++ rest) w = run rest w1
  ∧ run (deliveries events ++ SelStop :: rest) w = (Some false, w1)
  ∧ run (deliveries events ++ SelClosed :: rest) w = (Some true, w1)
  ∧ (∀ now event,
       fold_left (receive namespaceFilter colorize) (events ++ [(now, event)]) w
       = match processEvent namespaceFilter colorize now event w1 with
         | (Some e, w2) => addTrace w2 [ESend e]
         | (None, w2) => w2
         end).
Proof.
  intros run w1. subst run w1.
  split; [apply processEvents_deliveries|].
  repeat split.
  - rewrite (proj1 (processEvents_app _ _ _)), processEvents_deliveries. reflexivity.
  - rewrite (proj1 (processEvents_app _ _ _)), processEvents_deliveries. reflexivity.
  - rewrite (proj1 (processEvents_app _ _ _)), processEvents_deliveries. reflexivity.
  - intros now event. rewrite fold_left_app. cbn [fold_left]. unfold receive at 1.
    cbn [fst snd].
    destruct (processEvent namespaceFilter colorize now event _) as [[e|] w2]; reflexivity.
Qed.

Lemma processEvents_keyed in_ w :
  keyed (cache w) → keyed (cache (snd (processEvents namespaceFilter colorize in_ w))).
Proof.
  revert w. induction in_ as [|[| |now event] in_ IH]; intros w Hk; try exact Hk.
  rewrite processEvents_recv.
  pose proof (processEvent_keyed now event w Hk) as Hk1.
  destruct (processEvent namespaceFilter colorize now event w) as [[e|] w1];
    apply IH; exact Hk1.
Qed.

Lemma poll_cache interval gvr attempts w :
  cache (snd (PollImmediateUntil interval gvr attempts w)) = cache w.
Proof.
  revert w. induction attempts as [|[err cancelled|in_] attempts IH]; intros w.
  - reflexivity.
  - cbn [PollImmediateUntil]. unfold condition, mbind, State_bind.
    rewrite emit_addTrace. destruct (IsNotFound err); [|reflexivity].
    cbn [mret State_ret cancelledAfter]. destruct cancelled; [reflexivity|].
    rewrite emit_addTrace, IH. reflexivity.
  - reflexivity.
Qed.

Lemma poll_logged interval gvr attempts w :
  logged (snd (PollImmediateUntil interval gvr attempts w)) = logged w.
Proof.
  revert w. induction attempts as [|[err cancelled|in_] attempts IH]; intros w.
  - reflexivity.
  - cbn [PollImmediateUntil]. unfold condition, mbind, State_bind.
    rewrite emit_addTrace.
    assert (logged (addTrace w [EWatch gvr]) = logged w) as Hw
      by (rewrite logged_addTrace; apply app_nil_r).
    destruct (IsNotFound err) eqn:Hnf; [|exact Hw].
    cbn [mret State_ret cancelledAfter]. destruct cancelled; [exact Hw|].
    rewrite emit_addTrace, IH, logged_addTrace, Hw. apply app_nil_r.
  - cbn [PollImmediateUntil]. unfold condition, mbind, State_bind.
    rewrite emit_addTrace. cbn [mret State_ret snd].
    rewrite logged_addTrace. apply app_nil_r.
Qed.

(** What a poll can end with: nothing yet, an opened watch, the timeout
    of a cancelled wait, or an error of [Watch] that is not a not-found
    error. *)
Lemma poll_result interval gvr attempts w :
  match fst (PollImmediateUntil interval gvr attempts w) with
  | None | Some (Some _, None) | Some (None, Some ErrWaitTimeout) => True
  | Some (None, Some (ConditionError err)) => IsNotFound err = false
  | _ => False
  end.
Proof.
  revert w. induction attempts as [|[err cancelled|in_] attempts IH]; intros w.
  - exact I.
  - cbn [PollImmediateUntil]. unfold condition, mbind, State_bind.
    rewrite emit_addTrace. destruct (IsNotFound err) eqn:Hnf; [|exact Hnf].
    cbn [mret State_ret cancelledAfter]. destruct cancelled; [exact I|].
    rewrite emit_addTrace. apply IH.
  - exact I.
Qed.

Lemma watchResource_keyed gvr rounds w :
  keyed (cache w) →
  keyed (cache (snd (watchResource namespaceFilter colorize gvr rounds w))).
Proof.
  revert w. induction rounds as [|attempts rounds IH]; intros w Hk; [exact Hk|].
  rewrite watchResource_round.
  pose proof (poll_cache Second gvr attempts w) as Hc.
  destruct (PollImmediateUntil Second gvr attempts w) as [[[[in_|] [err|]]|] w1];
    cbn [snd] in Hc; rewrite <- Hc in Hk.
  - destruct (_ && _); exact Hk.
  - pose proof (processEvents_keyed in_ w1 Hk) as Hk2.
    destruct (processEvents namespaceFilter colorize in_ w1) as [[[|]|] w2];
      cbn [snd negb] in *; [apply IH| |]; exact Hk2.
  - destruct (_ && _); exact Hk.
  - exact Hk.
  - exact Hk.
Qed.

Lemma cacheResource_keyed listed : keyed (cacheResource listed).
Proof.
  unfold cacheResource, DeepCopy. destruct listed as [err|items]; [apply keyed_empty|].
  generalize (keyed_empty). generalize (∅ : gmap string Unstructured).
  induction items as [|o items IH]; intros c Hc; [exact Hc|].
  cbn [fold_left]. apply IH, keyed_insert, Hc.
Qed.

(** X6: every entry of the cache sits under the key of the object it
    holds: the listing builds the cache this way, and a watch loop
    started from it keeps it this way through every event, reconnect and
    exit. *)
Theorem cache_entries_keyed
    (listed : APIError + list Unstructured) (gvr : GroupVersionResource)
    (rounds : list (list Attempt)) (effects : list Effect) :
  keyed (cacheResource listed)
  ∧ keyed (cache (snd (watchResource namespaceFilter colorize gvr rounds
                         {| cache := cacheResource listed; trace := effects |}))).
Proof.
  split; [apply cacheResource_keyed|].
  apply watchResource_keyed, cacheResource_keyed.
Qed.

(** X7: [processEvent] touches no entry of the cache but the one under
    the key of the event's object. *)
Theorem processEvent_frame (now : Z) (event : WatchEvent) (w : Loop) (k : string) :
  k ≠ getKey (Object_ event) →
  cache (snd (processEvent namespaceFilter colorize now event w)) !! k = cache w !! k.
Proof.
  intros Hk. destruct (processEvent_shape now event w) as [->|(old & new & c & -> & Hc)].
  - reflexivity.
  - rewrite diffAndRender_cache. cbn [withCache cache].
    destruct Hc as [-> | ->].
    + apply lookup_insert_ne. congruence.
    + apply lookup_delete_ne. congruence.
Qed.

(** X8: once a delete event is processed the cache holds nothing under
    the object's key, and an add or modify event that follows for the same
    key is diffed against EmptyState: nothing of the deleted object is
    left to compare with. *)
Theorem create_after_delete_starts_fresh
    (now1 now2 : Z) (ty : EventType) (o o' : Unstructured) (w : Loop) :
  namespaceFilter (GetNamespace o) = true →
  namespaceFilter (GetNamespace o') = true →
  getKey o' = getKey o →
  ty ∈ [watch.Added; watch.Modified] →
  let w1 := snd (processEvent namespaceFilter colorize now1
                   {| Type_ := watch.Deleted; Object_ := o |} w) in
  cache w1 !! getKey o = None
  ∧ processEvent namespaceFilter colorize now2 {| Type_ := ty; Object_ := o' |} w1
    = diffAndRender colorize now2 (getKey o) emptyUnstructured o'
        (withCache w1 (<[getKey o := o']> (cache w1))).
Proof.
  intros Hns Hns' Hkey Hty w1.
  assert (cache w1 !! getKey o = None) as Hnone.
  { subst w1. rewrite processEvent_delete by exact Hns.
    rewrite diffAndRender_cache. apply lookup_delete_eq. }
  split; [exact Hnone|].
  assert (ty ∈ [watch.Added; watch.Modified; watch.Bookmark]) as Hty'.
  { apply elem_of_cons in Hty as [->|Hty]; [left|].
    apply list_elem_of_singleton in Hty as ->. right; left. }
  rewrite (processEvent_store _ _ now2 ty o' w1 Hty' Hns'), Hkey, Hnone. reflexivity.
Qed.

End LoopFacts.

Lemma processEvent_frame_witness :
  Main.cache (snd (@Main.processEvent Fixtures.asciiStrings (Fixtures.structuralEngine Fixtures.renderOk)
                     Fixtures.anyNamespace true 7
                     {| K8s.Type_ := K8s.watch.Deleted; K8s.Object_ := Fixtures.widget 1 |}
                     (Main.withCache Fixtures.emptyLoop
                        {[ " v1/widget" := Fixtures.bookmarkObject "7" ]})))
    !! " v1/widget"
  = Main.cache (Main.withCache Fixtures.emptyLoop
                  {[ " v1/widget" := Fixtures.bookmarkObject "7" ]}) !! " v1/widget".
Proof.
  apply (@processEvent_frame Fixtures.asciiStrings (Fixtures.structuralEngine Fixtures.renderOk)
           Fixtures.anyNamespace true 7
           {| K8s.Type_ := K8s.watch.Deleted; K8s.Object_ := Fixtures.widget 1 |}).
  discriminate.
Defined.

Lemma create_after_delete_starts_fresh_witness :
  let engine := Fixtures.structuralEngine Fixtures.renderOk in
  let listed := Main.withCache Fixtures.emptyLoop
                  {[ @Main.getKey Fixtures.asciiStrings (Fixtures.widget 1) := Fixtures.widget 1 ]} in
  let w1 := snd (@Main.processEvent Fixtures.asciiStrings engine Fixtures.anyNamespace true 7
                   {| K8s.Type_ := K8s.watch.Deleted; K8s.Object_ := Fixtures.widget 1 |}
                   listed) in
  Main.cache w1 !! @Main.getKey Fixtures.asciiStrings (Fixtures.widget 1) = None
  ∧ @Main.processEvent Fixtures.asciiStrings engine Fixtures.anyNamespace true 8
      {| K8s.Type_ := K8s.watch.Added; K8s.Object_ := Fixtures.widget 2 |} w1
    = @Main.diffAndRender engine true 8 (@Main.getKey Fixtures.asciiStrings (Fixtures.widget 1))
        Main.emptyUnstructured (Fixtures.widget 2)
        (Main.withCache w1 (<[@Main.getKey Fixtures.asciiStrings (Fixtures.widget 1) := Fixtures.widget 2]>
                              (Main.cache w1))).
Proof.
  apply (@create_after_delete_starts_fresh Fixtures.asciiStrings (Fixtures.structuralEngine Fixtures.renderOk)
           Fixtures.anyNamespace true 7 8 K8s.watch.Added
           (Fixtures.widget 1) (Fixtures.widget 2)).
  - reflexivity.
  - reflexivity.
  - reflexivity.
  - left.
Defined.

(** ** The initial listing *)

Lemma fold_insert_lookup `{K8s.Strings} (items : list K8s.Unstructured)
    (c : gmap string K8s.Unstructured) (k : string) :
  fold_left (λ cache o, <[Main.getKey o := K8s.DeepCopy o]> cache) items c !! k
  = match last (filter (λ o, Main.getKey o = k) items) with
    | Some o => Some o
    | None => c !! k
    end.
Proof.
  revert c. induction items as [|o items IH]; intros c; [reflexivity|].
  cbn [fold_left]. rewrite IH, filter_cons. unfold K8s.DeepCopy.
  destruct (decide (Main.getKey o = k)) as [Hk|Hk].
  - rewrite last_cons.
    destruct (last (filter (λ o, Main.getKey o = k) items)); [reflexivity|].
    rewrite <- Hk. apply lookup_insert_eq.
  - destruct (last (filter (λ o, Main.getKey o = k) items)); [reflexivity|].
    apply lookup_insert_ne. exact Hk.
Qed.

(** X9: a listing that fails gives the empty cache; a listing that
    succeeds gives a cache in which a key holds the last listed object
    that has this key, and nothing when no listed object has it. *)
Theorem cacheResource_lookup `{K8s.Strings} :
  (∀ err, Main.cacheResource (inl err) = ∅)
  ∧ (∀ items k,
       Main.cacheResource (inr items) !! k
       = last (filter (λ o, Main.getKey o = k) items)).
Proof.
  split; [reflexivity|]. intros items k.
  unfold Main.cacheResource. rewrite fold_insert_lookup, lookup_empty.
  destruct (last _); reflexivity.
Qed.

(** X10: when the diff engine reports no modification between a document
    and itself, an add or modify event that carries an object exactly as
    the listing returned it (the last one listed under its key) produces
    no ChangeEvent and leaves the loop as it is. *)
Theorem listed_object_resent_is_silent `{K8s.Strings} `{K8s.DiffEngine}
    (namespaceFilter : string → bool) (colorize : bool) (now : Z)
    (ty : K8s.EventType) (o : K8s.Unstructured) (items : list K8s.Unstructured)
    (effects : list Main.Effect) :
  (∀ x, K8s.Modified (K8s.CompareObjects x x) = false) →
  ty ∈ [K8s.watch.Added; K8s.watch.Modified] →
  namespaceFilter (K8s.GetNamespace o) = true →
  last (filter (λ x, Main.getKey x = Main.getKey o) items) = Some o →
  let w := {| Main.cache := Main.cacheResource (inr items); Main.trace := effects |} in
  Main.processEvent namespaceFilter colorize now {| K8s.Type_ := ty; K8s.Object_ := o |} w
  = (None, w).
Proof.
  intros Hrefl Hty Hns Hlast w.
  assert (ty ∈ [K8s.watch.Added; K8s.watch.Modified; K8s.watch.Bookmark]) as Hty'.
  { apply elem_of_cons in Hty as [->|Hty]; [left|].
    apply list_elem_of_singleton in Hty as ->. right; left. }
  assert (Main.cache w !! Main.getKey o = Some o) as Hc.
  { subst w. cbn [Main.cache]. unfold Main.cacheResource.
    rewrite fold_insert_lookup, Hlast. reflexivity. }
  rewrite (processEvent_store _ _ now ty o w Hty' Hns), Hc. cbn [default].
  assert (Main.withCache w (<[Main.getKey o := o]> (Main.cache w)) = w) as ->.
  { unfold Main.withCache. rewrite insert_id by exact Hc. reflexivity. }
  apply diffAndRender_unmodified, Hrefl.
Qed.

Lemma listed_object_resent_is_silent_witness :
  let engine := Fixtures.structuralEngine Fixtures.renderOk in
  let w := {| Main.cache := @Main.cacheResource Fixtures.asciiStrings (inr [Fixtures.widget 1; Fixtures.widget 2]);
              Main.trace := [] |} in
  @Main.processEvent Fixtures.asciiStrings engine Fixtures.anyNamespace true 7
    {| K8s.Type_ := K8s.watch.Modified; K8s.Object_ := Fixtures.widget 2 |} w
  = (None, w).
Proof.
  apply (@listed_object_resent_is_silent Fixtures.asciiStrings (Fixtures.structuralEngine Fixtures.renderOk)
           Fixtures.anyNamespace true 7 K8s.watch.Modified (Fixtures.widget 2)
           [Fixtures.widget 1; Fixtures.widget 2] []).
  - intros x. apply structuralEngine_refl.
  - right; left.
  - reflexivity.
  - reflexivity.
Defined.

(** ** The watch loop, continued *)

Section StreamFacts.
Import K8s Format Main.
Context `{Strings} `{DiffEngine}.
Variable namespaceFilter : string → bool.
Variable colorize : bool.

Lemma poll_opens interval gvr in_ rest w :
  PollImmediateUntil interval gvr (WatchOpens in_ :: rest) w
  = (Some (Some in_, None), addTrace w [EWatch gvr]).
Proof. reflexivity. Qed.

Lemma poll_cancelled interval gvr err rest w :
  IsNotFound err = true →
  PollImmediateUntil interval gvr (WatchFails err true :: rest) w
  = (Some (None, Some ErrWaitTimeout), addTrace w [EWatch gvr]).
Proof.
  intros Hnf. cbn [PollImmediateUntil]. unfold condition, mbind, State_bind.
  rewrite emit_addTrace, Hnf. reflexivity.
Qed.

(** X11: when a watch opens, the loop processes what the watch delivers;
    it calls [Stop] on the watch as soon as [processEvents] returns, on a
    closed channel as on cancellation; after a closed channel it goes on
    to open the next watch with the cache as the events left it, after
    cancellation it returns; until one of the two happens it stays in
    [processEvents]. *)
Theorem watchResource_stream_end
    (gvr : GroupVersionResource) (events : list (Z * WatchEvent))
    (ignored : list Select) (unused : list Attempt)
    (rounds : list (list Attempt)) (w : Loop) :
  let run := watchResource namespaceFilter colorize gvr in
  let w1 := snd (processEvents namespaceFilter colorize (deliveries events)
                   (addTrace w [EWatch gvr])) in
  run ((WatchOpens (deliveries events ++ SelClosed :: ignored) :: unused) :: rounds) w
  = run rounds (addTrace w1 [EStop])
  ∧ run ((WatchOpens (deliveries events ++ SelStop :: ignored) :: unused) :: rounds) w
    = (Stopped, addTrace w1 [EStop])
  ∧ run ((WatchOpens (deliveries events) :: unused) :: rounds) w = (Streaming, w1).
Proof.
  intros run w1. subst run w1.
  rewrite !watchResource_round, !poll_opens.
  pose proof (processEvents_app namespaceFilter colorize events) as Happ.
  split; [|split].
  - rewrite (proj1 (Happ _ _)). reflexivity.
  - rewrite (proj1 (Happ _ _)). reflexivity.
  - pose proof (proj2 (Happ [] (addTrace w [EWatch gvr]))) as Hnone.
    destruct (processEvents namespaceFilter colorize (deliveries events)
                (addTrace w [EWatch gvr])) as [ok w1].
    cbn [fst] in Hnone. subst ok. reflexivity.
Qed.

(** X12: cancellation raised while the loop waits to retry a not-found
    watch ends the loop without a log entry, however many retries went
    before. *)
Theorem watchResource_cancelled_while_polling
    (gvr : GroupVersionResource) (notFound : APIError) (n : nat)
    (unused : list Attempt) (rounds : list (list Attempt)) (w : Loop) :
  IsNotFound notFound = true →
  let w1 := addTrace w (retries Second gvr n ++ [EWatch gvr]) in
  watchResource namespaceFilter colorize gvr
    ((replicate n (WatchFails notFound false) ++ WatchFails notFound true :: unused)
       :: rounds) w
  = (Stopped, w1)
  ∧ logged w1 = logged w.
Proof.
  intros Hnf w1. subst w1. split.
  - rewrite watchResource_round, poll_retries by exact Hnf.
    rewrite poll_cancelled by exact Hnf.
    cbn [isWaitTimeout negb andb]. rewrite addTrace_app. reflexivity.
  - rewrite <- addTrace_app, logged_addTrace, logged_retries. apply app_nil_r.
Qed.

Lemma sent_addTrace_send w e : sent (addTrace w [ESend e]) = sent w ++ [e].
Proof. unfold sent, addTrace; simpl. rewrite omap_app. reflexivity. Qed.

Lemma logged_addTrace_send w e : logged (addTrace w [ESend e]) = logged w.
Proof. rewrite logged_addTrace. apply app_nil_r. Qed.

Lemma processEvents_logged in_ w :
  ∃ errs, logged (snd (processEvents namespaceFilter colorize in_ w))
          = logged w ++ map LogFormatError errs.
Proof.
  revert w. induction in_ as [|[| |now event] in_ IH]; intros w;
    try (exists []; simpl; rewrite app_nil_r; reflexivity).
  rewrite processEvents_recv.
  destruct (processEvent_logged namespaceFilter colorize now event w) as [errs1 H1].
  destruct (processEvent namespaceFilter colorize now event w) as [[e|] w1];
    cbn [snd] in H1.
  - destruct (IH (addTrace w1 [ESend e])) as [errs2 H2].
    exists (errs1 ++ errs2).
    rewrite H2, logged_addTrace_send, H1, map_app, app_assoc. reflexivity.
  - destruct (IH w1) as [errs2 H2].
    exists (errs1 ++ errs2). rewrite H2, H1, map_app, app_assoc. reflexivity.
Qed.

(** X13: the events [processEvents] sends on [out] are added after those
    sent before, at most one for each event delivered, and each carries
    the key of a delivered object and the time at which that delivery was
    processed. *)
Theorem processEvents_sends (in_ : list Select) (w : Loop) :
  ∃ es, sent (snd (processEvents namespaceFilter colorize in_ w)) = sent w ++ es
        ∧ length es ≤ length in_
        ∧ Forall (λ e, ∃ now event, SelRecv now event ∈ in_
                                    ∧ Name e = getKey (Object_ event)
                                    ∧ Timestamp e = now) es.
Proof.
  revert w. induction in_ as [|[| |now event] in_ IH]; intros w;
    try (exists []; simpl; rewrite app_nil_r;
         split; [reflexivity|]; split; [lia|constructor]).
  rewrite processEvents_recv.
  pose proof (processEvent_sent namespaceFilter colorize now event w) as Hs.
  pose proof (processEvent_event namespaceFilter colorize now event w) as He.
  destruct (processEvent namespaceFilter colorize now event w) as [[e|] w1];
    cbn [fst snd] in Hs, He.
  - destruct (IH (addTrace w1 [ESend e])) as (es & Hes & Hlen & Hall).
    exists (e :: es). rewrite Hes, sent_addTrace_send, Hs, <- app_assoc.
    split; [reflexivity|]. split; [simpl; lia|].
    constructor.
    + exists now, event. split; [left|]. apply He. reflexivity.
    + eapply Forall_impl; [exact Hall|].
      intros e' (now' & event' & Hin & Hrest). exists now', event'.
      split; [right; exact Hin | exact Hrest].
  - destruct (IH w1) as (es & Hes & Hlen & Hall).
    exists es. rewrite Hes, Hs. split; [reflexivity|]. split; [simpl; lia|].
    eapply Forall_impl; [exact Hall|].
    intros e' (now' & event' & Hin & Hrest). exists now', event'.
    split; [right; exact Hin | exact Hrest].
Qed.

(** X14: whatever the environment does, a watch loop logs the
    formatting errors of the diffs and at most one more entry; that entry
    is the last one, it is for an error of [Watch] on the loop's own
    resource type that is neither not-found nor method-not-supported,
    and the loop has returned when it is written.  In particular the
    timeout of a cancelled wait is never logged. *)
Theorem watchResource_log
    (gvr : GroupVersionResource) (rounds : list (list Attempt)) (w : Loop) :
  let r := watchResource namespaceFilter colorize gvr rounds w in
  ∃ errs last,
    logged (snd r) = logged w ++ map LogFormatError errs ++ last
    ∧ (last = []
       ∨ ∃ err, last = [LogWatchError gvr (ConditionError err)]
                ∧ fst r = Stopped
                ∧ IsNotFound err = false
                ∧ IsMethodNotSupported err = false).
Proof.
  cbv zeta. revert w. induction rounds as [|attempts rounds IH]; intros w.
  { exists [], []. split; [simpl; rewrite app_nil_r; reflexivity | left; reflexivity]. }
  rewrite watchResource_round.
  pose proof (poll_logged Second gvr attempts w) as Hl.
  pose proof (poll_result Second gvr attempts w) as Hr.
  destruct (PollImmediateUntil Second gvr attempts w) as [[[[in_|] [err|]]|] w1];
    cbn [fst snd] in Hl, Hr; try contradiction.
  - destruct (processEvents_logged in_ w1) as [errs1 H1].
    destruct (processEvents namespaceFilter colorize in_ w1) as [[[|]|] w2];
      cbn [snd negb] in *.
    + destruct (IH (addTrace w2 [EStop])) as (errs2 & last & H2 & Hlast).
      exists (errs1 ++ errs2), last. split; [|exact Hlast].
      rewrite H2, logged_addTrace. cbn [omap]. rewrite app_nil_r, H1, Hl, map_app.
      rewrite <- !app_assoc. reflexivity.
    + exists errs1, []. split; [|left; reflexivity].
      rewrite logged_addTrace. cbn [omap]. rewrite !app_nil_r, H1, Hl. reflexivity.
    + exists errs1, []. split; [|left; reflexivity].
      rewrite app_nil_r, H1, Hl. reflexivity.
  - destruct err as [|err]; cbn [isWaitTimeout pollErrorIsMethodNotSupported negb andb].
    + exists [], []. split; [|left; reflexivity]. simpl. rewrite app_nil_r. exact Hl.
    + destruct (IsMethodNotSupported err) eqn:Hm; cbn [negb].
      * exists [], []. split; [|left; reflexivity]. simpl. rewrite app_nil_r. exact Hl.
      * exists [], [LogWatchError gvr (ConditionError err)]. split.
        -- cbn [snd]. rewrite logged_addTrace, Hl. reflexivity.
        -- right. exists err. repeat split; assumption || reflexivity.
  - exists [], []. split; [|left; reflexivity]. simpl. rewrite app_nil_r. exact Hl.
Qed.

End StreamFacts.

Lemma watchResource_cancelled_while_polling_witness :
  let notFound := K8s.StatusError K8s.StatusReasonNotFound "not found" in
  @Main.watchResource Fixtures.asciiStrings (Fixtures.structuralEngine Fixtures.renderOk)
    Fixtures.anyNamespace true Fixtures.widgets
    [replicate 2 (Main.WatchFails notFound false) ++ [Main.WatchFails notFound true]]
    Fixtures.emptyLoop
  = (Main.Stopped,
     Main.addTrace Fixtures.emptyLoop
       (Main.retries K8s.Second Fixtures.widgets 2 ++ [Main.EWatch Fixtures.widgets])).
Proof.
  apply (@watchResource_cancelled_while_polling Fixtures.asciiStrings
           (Fixtures.structuralEngine Fixtures.renderOk) Fixtures.anyNamespace true
           Fixtures.widgets (K8s.StatusError K8s.StatusReasonNotFound "not found")
           2 [] [] Fixtures.emptyLoop).
  reflexivity.
Defined.

(** ** The dispatcher *)

Section DispatchFacts.
Import K8s Main.
Variable ParseGroupVersion : string → GroupVersion + string.
Variables gvFilter gvrFilter : string → bool.

Lemma afterSends_nil d : afterSends [] d = (Running, d).
Proof.
  unfold afterSends. cbn [length Nat.leb drop]. rewrite take_nil, app_nil_r.
  destruct d; reflexivity.
Qed.

Lemma afterSends_cons x xs d :
  afterSends (x :: xs) d
  = match rounds d with
    | [] => (Blocked, d)
    | SendStop :: rest =>
        (Returned, {| queue := queue d; closed := closed d;
                      parseErrors := parseErrors d; rounds := rest |})
    | SendOk :: rest =>
        afterSends xs {| queue := queue d ++ [x]; closed := closed d;
                         parseErrors := parseErrors d; rounds := rest |}
    end.
Proof.
  unfold afterSends. destruct d as [q c pe [|[|] rest]]; cbn [rounds queue closed parseErrors granted].
  - cbn. rewrite app_nil_r. reflexivity.
  - cbn. rewrite app_nil_r. reflexivity.
  - cbn [length Nat.leb take drop]. rewrite <- app_assoc. reflexivity.
Qed.

Lemma trySend_rounds x d :
  trySend x d
  = match rounds d with
    | [] => (Blocked, d)
    | SendStop :: rest =>
        (Returned, {| queue := queue d; closed := closed d;
                      parseErrors := parseErrors d; rounds := rest |})
    | SendOk :: rest =>
        (Running, {| queue := queue d ++ [x]; closed := closed d;
                     parseErrors := parseErrors d; rounds := rest |})
    end.
Proof. destruct d as [q c pe [|[|] rest]]; reflexivity. Qed.

Lemma sendResources_afterSends groupVersion gv rs d :
  sendResources gvrFilter groupVersion gv rs d
  = afterSends (descriptors gvrFilter groupVersion gv rs) d.
Proof.
  revert d. induction rs as [|r rs IH]; intros d.
  - cbn. rewrite afterSends_nil. reflexivity.
  - cbn [sendResources]. unfold descriptors. cbn [List.filter].
    destruct (gvrFilter (groupVersion +:+ "/" +:+ ResourceName r)); cbn [negb].
    + cbn [map]. rewrite afterSends_cons.
      unfold mbind, State_bind. rewrite trySend_rounds.
      destruct (rounds d) as [|[|] rest]; try reflexivity.
      apply IH.
    + apply IH.
Qed.

Lemma afterSends_app xs ys d :
  afterSends (xs ++ ys) d
  = match afterSends xs d with
    | (Running, d1) => afterSends ys d1
    | r => r
    end.
Proof.
  revert d. induction xs as [|x xs IH]; intros d.
  - rewrite afterSends_nil. reflexivity.
  - cbn [app]. rewrite !afterSends_cons.
    destruct (rounds d) as [|[|] rest]; try reflexivity. apply IH.
Qed.

Lemma afterSends_withParseErrors xs d errs :
  afterSends xs (withParseErrors d errs)
  = (fst (afterSends xs d), withParseErrors (snd (afterSends xs d)) errs).
Proof. reflexivity. Qed.

Lemma withParseErrors_twice d errs1 errs2 :
  withParseErrors (withParseErrors d errs1) errs2 = withParseErrors d errs2.
Proof. reflexivity. Qed.

Lemma withParseErrors_same d : withParseErrors d (parseErrors d) = d.
Proof. destruct d; reflexivity. Qed.

(** The loops of [filterResources] send the matching descriptors one
    after the other; only the logged errors depend on more than that. *)
Lemma sendGroups_afterSends resources d :
  ∃ errs,
    sendGroups ParseGroupVersion gvFilter gvrFilter resources d
    = (match fst (afterSends (matching ParseGroupVersion gvFilter gvrFilter resources) d)
       with Running => Returned | flow => flow end,
       withParseErrors
         (snd (afterSends (matching ParseGroupVersion gvFilter gvrFilter resources) d))
         errs).
Proof.
  revert d. induction resources as [|g resources IH]; intros d.
  - exists (parseErrors d). cbn [matching flat_map]. rewrite afterSends_nil.
    cbn [fst snd]. rewrite withParseErrors_same. reflexivity.
  - cbn [sendGroups matching flat_map].
    destruct (gvFilter (GroupVersion_ g)); cbn [negb]; [|apply IH].
    destruct (ParseGroupVersion (GroupVersion_ g)) as [gv|err].
    + unfold mbind at 1, State_bind at 1.
      rewrite sendResources_afterSends, afterSends_app.
      destruct (afterSends (descriptors gvrFilter (GroupVersion_ g) gv (APIResources g)) d)
        as [[| |] d1].
      * apply IH.
      * exists (parseErrors d1). cbn [fst snd]. rewrite withParseErrors_same. reflexivity.
      * exists (parseErrors d1). cbn [fst snd]. rewrite withParseErrors_same. reflexivity.
    + cbn [app]. unfold mbind at 1, State_bind at 1, modify.
      destruct (IH (withParseErrors d (parseErrors d ++ [err]))) as [errs Herrs].
      exists errs. unfold withParseErrors at 1 in Herrs. rewrite Herrs.
      rewrite afterSends_withParseErrors. reflexivity.
Qed.

Lemma granted_le rs : granted rs ≤ length rs.
Proof. induction rs as [|[|] rs IH]; simpl; lia. Qed.

(** X15: [filterResources] sends descriptors in catalog order and only
    descriptors that pass both filters: what it has sent is always the
    first [k] of the matching descriptors, with [k] the number of sends
    the environment lets through.  When the environment lets all of them
    through the function returns with every matching descriptor sent: a
    group-version that does not parse is skipped and does not end the
    enumeration.  The function never returns without closing the queue,
    and a call that blocks in a send leaves the queue as it was. *)
Theorem filterResources_dispatch (resources : list APIResourceList) (d : Dispatch) :
  let r := filterResources ParseGroupVersion gvFilter gvrFilter resources d in
  let m := matching ParseGroupVersion gvFilter gvrFilter resources in
  let k := granted (rounds d) in
  queue (snd r) = queue d ++ take k m
  ∧ (length m ≤ k → fst r = Returned ∧ queue (snd r) = queue d ++ m)
  ∧ (fst r = Returned ∧ closed (snd r) = true
     ∨ fst r = Blocked ∧ closed (snd r) = closed d
       ∧ k < length m ∧ k = length (rounds d)).
Proof.
  intros r m k. subst r. unfold filterResources, mbind, State_bind.
  destruct (sendGroups_afterSends resources d) as [errs ->].
  fold m. unfold afterSends. fold k. cbn [fst snd].
  destruct (Nat.leb_spec (length m) k) as [Hle|Hlt].
  - cbn. split; [reflexivity|]. split.
    + intros _. split; [reflexivity|]. rewrite take_ge by exact Hle. reflexivity.
    + left. split; reflexivity.
  - destruct (drop k (rounds d)) as [|x rest] eqn:Hdrop.
    + cbn. split; [reflexivity|]. split; [lia|].
      right. split; [reflexivity|]. split; [reflexivity|]. split; [exact Hlt|].
      apply drop_nil_inv in Hdrop. pose proof (granted_le (rounds d)). subst k. lia.
    + cbn. split; [reflexivity|]. split; [lia|]. left. split; reflexivity.
Qed.

End DispatchFacts.

Lemma filterResources_dispatch_witness :
  let r := Main.filterResources Fixtures.parseGroupVersion
             (Filter.NewFilter []) (Filter.NewFilter ["!apps/v1/deployments"])
             Fixtures.catalog (Fixtures.freshDispatch [Main.SendOk; Main.SendOk; Main.SendOk]) in
  fst r = Main.Returned
  ∧ Main.queue (snd r)
    = Main.queue (Fixtures.freshDispatch [Main.SendOk; Main.SendOk; Main.SendOk])
      ++ Main.matching Fixtures.parseGroupVersion
           (Filter.NewFilter []) (Filter.NewFilter ["!apps/v1/deployments"])
           Fixtures.catalog.
Proof.
  apply (filterResources_dispatch Fixtures.parseGroupVersion
           (Filter.NewFilter []) (Filter.NewFilter ["!apps/v1/deployments"])
           Fixtures.catalog (Fixtures.freshDispatch [Main.SendOk; Main.SendOk; Main.SendOk])).
  vm_compute. lia.
Defined.

(** The catalog of the fixtures: the negated deployments are left out,
    the group-version that does not parse is logged and skipped, and the
    queue is closed at the end. *)
Example dispatch_scenario :
  Main.filterResources Fixtures.parseGroupVersion
    (Filter.NewFilter []) (Filter.NewFilter ["!apps/v1/deployments"])
    Fixtures.catalog (Fixtures.freshDispatch [Main.SendOk; Main.SendOk; Main.SendOk])
  = (Main.Returned,
     {| Main.queue :=
          [ {| K8s.Group := "apps"; K8s.Version := "v1"; K8s.Resource := "statefulsets" |};
            {| K8s.Group := EmptyString; K8s.Version := "v1"; K8s.Resource := "pods" |} ];
        Main.closed := true;
        Main.parseErrors := ["unexpected GroupVersion string: a/b/c"];
        Main.rounds := [Main.SendOk] |}).
Proof. vm_compute. reflexivity. Qed.

(** ** The printer, continued *)

Section PrinterMore.
Import Format Main.

Lemma rendered_app {F} (c : Console F) (texts : list string) (f : F) :
  rendered {| stdout := stdout c ++ texts; formatter := f |}
  = rendered c +:+ foldr String.append EmptyString texts.
Proof.
  unfold rendered. cbn [stdout]. induction (stdout c) as [|t ts IH]; [reflexivity|].
  cbn [app foldr]. rewrite IH, string_app_assoc. reflexivity.
Qed.

(** X16: as long as cancellation is not raised the printer loop prints
    every event it can receive and does not return, so that [main] does
    not get to the drain pass nor to the epilogue. *)
Theorem printEvents_until_cancelled {F : Type} `{EventFormatter F}
    (out : list Event) (sched : list bool) (c : Console F) :
  printEvents out false sched c = (None, printAll c out)
  ∧ mainOutput out false sched c
    = (None, printAll {| stdout := stdout c ++ [Preamble (formatter c)];
                         formatter := formatter c |} out).
Proof.
  assert (∀ c', printEvents out false sched c' = (None, printAll c' out)) as Hrun.
  { induction out as [|e out IH]; intros c'.
    - simpl. rewrite printAll_nil. reflexivity.
    - cbn [printEvents]. unfold mbind, State_bind.
      rewrite printFormatted_printAll, IH, <- printAll_cons. reflexivity. }
  split; [apply Hrun|].
  unfold mainOutput, mbind, State_bind, get, Print, modify. rewrite Hrun. reflexivity.
Qed.

Context `{GoLib}.

Lemma DefaultFormatter_Format_block (e : Event) :
  DefaultFormatter_Format e = defaultBlock e.
Proof. reflexivity. Qed.

Lemma formatAll_default (f : DefaultFormatter) (events : list Event) :
  formatAll f events = (map defaultBlock events, f).
Proof.
  induction events as [|e events IH]; [reflexivity|].
  cbn [formatAll Format DefaultFormatter_EventFormatter]. rewrite IH. reflexivity.
Qed.

(** X17: in the default format an event is one block, a bracketed
    timestamp, a space, the key, a newline, the diff and a newline; the
    formatter has no preamble and no epilogue, so that all that [main]
    writes, from the preamble to the epilogue, is these blocks one after
    the other. *)
Theorem default_format_output
    (out : list Event) (sched : list bool) (c : Console DefaultFormatter) :
  (∀ e, Format (formatter c) e = (defaultBlock e, formatter c))
  ∧ rendered (snd (mainOutput out true sched c))
    = rendered c +:+ foldr String.append EmptyString (map defaultBlock out).
Proof.
  split; [reflexivity|].
  rewrite mainOutput_cancelled. cbn [snd]. unfold printAll. cbn [formatter stdout].
  rewrite formatAll_default. cbn [stdout formatter Preamble Epilogue
                                     DefaultFormatter_EventFormatter].
  rewrite <- !app_assoc, rendered_app, !foldr_app. cbn [foldr].
  rewrite string_app_nil_l. reflexivity.
Qed.

#[local] Existing Instance Stateful.TraceEventFormatter_EventFormatter.

Lemma formatAll_separated (events : list Event) :
  formatAll {| Stateful.needsComma := true |} events
  = (map (λ e, "," +:+ newline +:+ traceRecord e) events,
     {| Stateful.needsComma := true |}).
Proof.
  induction events as [|e events IH]; [reflexivity|].
  cbn [formatAll Format Stateful.TraceEventFormatter_EventFormatter].
  rewrite Stateful_Format_record, IH. reflexivity.
Qed.

(** X18: the formatter with the [needsComma] field separates the records
    of a run instead of terminating them: the first record printed gets
    no comma, every later one gets a comma in front, and the field stays
    set once a record has been printed. *)
Theorem trace_records_comma_separated (e : Event) (events : list Event) :
  formatAll {| Stateful.needsComma := false |} (e :: events)
  = ((newline +:+ traceRecord e)
       :: map (λ e', "," +:+ newline +:+ traceRecord e') events,
     {| Stateful.needsComma := true |})
  ∧ formatAll {| Stateful.needsComma := true |} (e :: events)
    = (map (λ e', "," +:+ newline +:+ traceRecord e') (e :: events),
       {| Stateful.needsComma := true |}).
Proof.
  split; [|apply formatAll_separated].
  cbn [formatAll Format Stateful.TraceEventFormatter_EventFormatter].
  rewrite Stateful_Format_record, formatAll_separated. reflexivity.
Qed.

End PrinterMore.
